(** * space4k: a shallow embedding of the fixed-formation shooter

    The development follows [src/space4k.py].  Every local variable of
    [main_game] that the simulation reads or writes is a field of the record
    [Game]; the body of the [while running] loop is the function
    [loop_iteration]; the outer [while main_game()] loop of [__main__] is
    [program_step].

    What comes from outside the program is an explicit input:
    - [pygame.time.get_ticks()]: an integer clock reading, handed to every
      place that calls it;
    - [pygame.event.get()] and [pygame.key.get_pressed()]: the event list and
      the key state of the frame;
    - [random.random() < ENEMY_SHOOT_CHANCE]: one boolean per enemy and frame.

    pygame itself is a library: [Rect], the sprite groups, [spritecollide]
    and [groupcollide] are modelled after their documented behaviour.  A
    group is the list of its sprites in insertion order, [kill()] removes a
    sprite from the groups that hold it.  Rectangle coordinates are
    mathematical integers: every coordinate of a play stays within a few
    thousand pixels, far from the range of the C [int] pygame stores.
    Drawing, colours and the synthesis of the sounds are left out; the calls
    of [sound_engine.play] are kept as the list of cues played. *)

From Stdlib Require Import ZArith List Bool Lia Permutation.
Import ListNotations.
Local Open Scope Z_scope.

(** ** Constants *)

Definition SCREEN_WIDTH : Z := 800.
Definition SCREEN_HEIGHT : Z := 600.

Definition PLAYER_WIDTH : Z := 50.
Definition PLAYER_HEIGHT : Z := 20.
Definition PLAYER_SPEED : Z := 4.
Definition PLAYER_LIVES : Z := 3.

Definition BULLET_WIDTH : Z := 5.
Definition BULLET_HEIGHT : Z := 15.
Definition BULLET_SPEED : Z := 6.

Definition ENEMY_COLS : Z := 10.
Definition ENEMY_ROWS : Z := 5.
Definition ENEMY_SPACING_X : Z := 60.
Definition ENEMY_SPACING_Y : Z := 40.
Definition ENEMY_WIDTH : Z := 40.
Definition ENEMY_HEIGHT : Z := 20.
Definition ENEMY_MOVE_SPEED_X : Z := 1.
Definition ENEMY_MOVE_DOWN_STEP : Z := 10.
Definition ENEMY_MOVE_INTERVAL : Z := 500.

(** ** pygame.Rect *)

Record Rect := mkRect { rect_x : Z; rect_y : Z; rect_w : Z; rect_h : Z }.

Definition rect_left (r : Rect) : Z := rect_x r.
Definition rect_top (r : Rect) : Z := rect_y r.
Definition rect_right (r : Rect) : Z := rect_x r + rect_w r.
Definition rect_bottom (r : Rect) : Z := rect_y r + rect_h r.
Definition rect_centerx (r : Rect) : Z := rect_x r + rect_w r / 2.

Definition set_x (r : Rect) (v : Z) : Rect := mkRect v (rect_y r) (rect_w r) (rect_h r).
Definition set_y (r : Rect) (v : Z) : Rect := mkRect (rect_x r) v (rect_w r) (rect_h r).
Definition set_left (r : Rect) (v : Z) : Rect := set_x r v.
Definition set_top (r : Rect) (v : Z) : Rect := set_y r v.
Definition set_right (r : Rect) (v : Z) : Rect := set_x r (v - rect_w r).
Definition set_bottom (r : Rect) (v : Z) : Rect := set_y r (v - rect_h r).
Definition set_centerx (r : Rect) (v : Z) : Rect := set_x r (v - rect_w r / 2).
Definition set_centery (r : Rect) (v : Z) : Rect := set_y r (v - rect_h r / 2).

(** [Surface([w, h]).get_rect()] *)
Definition get_rect (w h : Z) : Rect := mkRect 0 0 w h.

(** [a.colliderect(b)] for rectangles of positive size, the only ones the
    game creates: the two overlap on both axes, touching edges do not
    count. *)
Definition colliderect (a b : Rect) : bool :=
  (rect_left a <? rect_right b) && (rect_top a <? rect_bottom b) &&
  (rect_right a >? rect_left b) && (rect_bottom a >? rect_top b).

(** ** Cues: the names passed to [sound_engine.play] *)

Inductive Cue := player_shoot | enemy_shoot | enemy_destroyed | player_hit.

(** ** Sprites *)

Record Bullet := mkBullet { b_rect : Rect; speed_y : Z }.

Record Player := mkPlayer {
  p_rect : Rect;
  speed_x : Z;
  lives : Z;
  shoot_delay : Z;
  last_shot_time : Z
}.

Record Enemy := mkEnemy { e_rect : Rect; enemy_type : Z }.

(** [Bullet.__init__(x, y, direction, color)] *)
Definition Bullet_init (x y direction : Z) : Bullet :=
  let r := get_rect BULLET_WIDTH BULLET_HEIGHT in
  let r := set_centerx r x in
  let r := set_centery r y in
  let r := if direction =? -1 then set_bottom r y else set_top r y in
  mkBullet r (BULLET_SPEED * direction).

(** [Bullet.update]: the bullet after the move, and whether it killed
    itself. *)
Definition Bullet_update (b : Bullet) : Bullet * bool :=
  let r := set_y (b_rect b) (rect_y (b_rect b) + speed_y b) in
  (mkBullet r (speed_y b),
   (rect_bottom r <? 0) || (rect_top r >? SCREEN_HEIGHT)).

(** [Player.__init__]; [now] is the clock reading of line 112. *)
Definition Player_init (now : Z) : Player :=
  let r := get_rect PLAYER_WIDTH PLAYER_HEIGHT in
  let r := set_x r ((SCREEN_WIDTH - PLAYER_WIDTH) / 2) in
  let r := set_y r (SCREEN_HEIGHT - PLAYER_HEIGHT - 20) in
  mkPlayer r 0 PLAYER_LIVES 250 now.

(** [pygame.key.get_pressed()], the four keys [Player.update] reads. *)
Record Keys := mkKeys { K_LEFT : bool; K_a : bool; K_RIGHT : bool; K_d : bool }.

Definition with_rect (p : Player) (r : Rect) : Player :=
  mkPlayer r (speed_x p) (lives p) (shoot_delay p) (last_shot_time p).
Definition with_speed_x (p : Player) (v : Z) : Player :=
  mkPlayer (p_rect p) v (lives p) (shoot_delay p) (last_shot_time p).
Definition with_lives (p : Player) (v : Z) : Player :=
  mkPlayer (p_rect p) (speed_x p) v (shoot_delay p) (last_shot_time p).
Definition with_last_shot_time (p : Player) (v : Z) : Player :=
  mkPlayer (p_rect p) (speed_x p) (lives p) (shoot_delay p) v.

(** [Player.update] *)
Definition Player_update (keystate : Keys) (p : Player) : Player :=
  let v := 0 in
  let v := if K_LEFT keystate || K_a keystate then - PLAYER_SPEED else v in
  let v := if K_RIGHT keystate || K_d keystate then PLAYER_SPEED else v in
  let r := set_x (p_rect p) (rect_x (p_rect p) + v) in
  let r := if rect_left r <? 0 then set_left r 0 else r in
  let r := if rect_right r >? SCREEN_WIDTH then set_right r SCREEN_WIDTH else r in
  with_rect (with_speed_x p v) r.

(** [Player.shoot]; [now] is the clock reading of line 129.  The result is
    the player, the bullet added to [all_sprites] and [player_bullets] (if
    any) and the cues played. *)
Definition Player_shoot (now : Z) (p : Player) : Player * option Bullet * list Cue :=
  if now - last_shot_time p >? shoot_delay p then
    (with_last_shot_time p now,
     Some (Bullet_init (rect_centerx (p_rect p)) (rect_top (p_rect p)) (-1)),
     [player_shoot])
  else (p, None, []).

(** [Enemy.__init__(x, y, enemy_type)] *)
Definition Enemy_init (x y ty : Z) : Enemy :=
  mkEnemy (set_y (set_x (get_rect ENEMY_WIDTH ENEMY_HEIGHT) x) y) ty.

(** [Enemy.shoot]: the bullet added to [all_sprites] and [enemy_bullets]. *)
Definition Enemy_shoot (e : Enemy) : Bullet :=
  Bullet_init (rect_centerx (e_rect e)) (rect_bottom (e_rect e)) 1.

(** [create_enemies]: the two nested [range] loops, rows outside. *)
Definition create_enemies : list Enemy :=
  let start_x := (SCREEN_WIDTH - ENEMY_COLS * ENEMY_SPACING_X) / 2
                 + ENEMY_SPACING_X / 2 - ENEMY_WIDTH / 2 in
  let start_y := 50 in
  flat_map (fun row =>
    map (fun col =>
           Enemy_init (start_x + Z.of_nat col * ENEMY_SPACING_X)
                      (start_y + Z.of_nat row * ENEMY_SPACING_Y)
                      (Z.of_nat row))
        (seq 0 (Z.to_nat ENEMY_COLS)))
    (seq 0 (Z.to_nat ENEMY_ROWS)).

(** ** The state of [main_game] *)

Inductive Phase := playing | game_over | win.

(** The locals of [main_game].  [all_sprites] holds the player (while
    [player_alive]), every enemy and every bullet of the three groups, and
    serves only [update] and drawing, so it is not stored a second time. *)
Record Game := mkGame {
  player : Player;
  player_alive : bool;
  enemies_group : list Enemy;
  player_bullets : list Bullet;
  enemy_bullets : list Bullet;
  score : Z;
  enemy_current_move_speed_x : Z;
  move_enemies_down : bool;
  last_enemy_move_time : Z;
  running : bool;
  game_state : Phase;
  cues : list Cue
}.

(** Lines 263-280; [t_player] and [t_enemy] are the clock readings of
    lines 112 and 277. *)
Definition main_game_init (t_player t_enemy : Z) : Game :=
  mkGame (Player_init t_player) true create_enemies [] [] 0
         ENEMY_MOVE_SPEED_X false t_enemy true playing [].

(** ** Event handling (lines 286-297) *)

Inductive Key := K_SPACE | K_UP | K_w | K_r | K_q | K_other.
Inductive Event := QUIT | KEYDOWN (key : Key) | KEYUP (key : Key) | OTHER.

Definition stop_running (g : Game) : Game :=
  mkGame (player g) (player_alive g) (enemies_group g) (player_bullets g)
         (enemy_bullets g) (score g) (enemy_current_move_speed_x g)
         (move_enemies_down g) (last_enemy_move_time g) false (game_state g)
         (cues g).

(** [player.shoot(all_sprites, player_bullets, sound_engine)] on the state. *)
Definition shoot_request (now : Z) (g : Game) : Game :=
  let '(p, bullet, played) := Player_shoot now (player g) in
  mkGame p (player_alive g) (enemies_group g)
         (player_bullets g ++ match bullet with Some b => [b] | None => [] end)
         (enemy_bullets g) (score g) (enemy_current_move_speed_x g)
         (move_enemies_down g) (last_enemy_move_time g) (running g)
         (game_state g) (cues g ++ played).

(** The [for event in pygame.event.get()] loop.  Every event comes with the
    clock reading a [get_ticks()] made while handling it returns.  [None] is
    the [return True] of line 295. *)
Fixpoint handle_events (evs : list (Event * Z)) (g : Game) : option Game :=
  match evs with
  | [] => Some g
  | (ev, now) :: rest =>
      match ev with
      | QUIT => handle_events rest (stop_running g)
      | KEYDOWN key =>
          match game_state g with
          | playing =>
              match key with
              | K_SPACE | K_UP | K_w => handle_events rest (shoot_request now g)
              | _ => handle_events rest g
              end
          | game_over | win =>
              match key with
              | K_r => None
              | K_q => handle_events rest (stop_running g)
              | _ => handle_events rest g
              end
          end
      | _ => handle_events rest g
      end
  end.

(** ** [all_sprites.update()] (line 309) *)

Definition update_bullets (group : list Bullet) : list Bullet :=
  flat_map (fun b => let (b', killed) := Bullet_update b in
                     if killed then [] else [b']) group.

Definition all_sprites_update (keystate : Keys) (g : Game) : Game :=
  mkGame (if player_alive g then Player_update keystate (player g) else player g)
         (player_alive g) (enemies_group g)
         (update_bullets (player_bullets g)) (update_bullets (enemy_bullets g))
         (score g) (enemy_current_move_speed_x g) (move_enemies_down g)
         (last_enemy_move_time g) (running g) (game_state g) (cues g).

(** ** Enemy movement (lines 311-334) *)

Definition Enemy_shift_x (dx : Z) (e : Enemy) : Enemy :=
  mkEnemy (set_x (e_rect e) (rect_x (e_rect e) + dx)) (enemy_type e).
Definition Enemy_shift_y (dy : Z) (e : Enemy) : Enemy :=
  mkEnemy (set_y (e_rect e) (rect_y (e_rect e) + dy)) (enemy_type e).

(** Lines 316-319: the loop that moves every enemy sideways and records a
    wall hit. *)
Fixpoint sidestep_loop (dx : Z) (group : list Enemy) (wall_hit : bool)
  : list Enemy * bool :=
  match group with
  | [] => ([], wall_hit)
  | enemy :: rest =>
      let enemy := Enemy_shift_x dx enemy in
      let wall_hit :=
        if (rect_right (e_rect enemy) >? SCREEN_WIDTH)
           || (rect_left (e_rect enemy) <? 0)
        then true else wall_hit in
      let (rest', wall_hit) := sidestep_loop dx rest wall_hit in
      (enemy :: rest', wall_hit)
  end.

(** Lines 326-331: the loop that drops every enemy and ends the game when
    one of them is level with the player. *)
Fixpoint descend_loop (player_top : Z) (group : list Enemy) (lv : Z) (gs : Phase)
  : list Enemy * Z * Phase :=
  match group with
  | [] => ([], lv, gs)
  | enemy :: rest =>
      let enemy := Enemy_shift_y ENEMY_MOVE_DOWN_STEP enemy in
      let '(lv, gs) :=
        if rect_bottom (e_rect enemy) >=? player_top
        then (0, game_over) else (lv, gs) in
      let '(rest', lv, gs) := descend_loop player_top rest lv gs in
      (enemy :: rest', lv, gs)
  end.

(** Lines 312-334; [now] is the clock reading of line 313. *)
Definition enemy_movement (now : Z) (g : Game) : Game :=
  match enemies_group g with
  | [] => g
  | _ :: _ =>
      if now - last_enemy_move_time g >=? ENEMY_MOVE_INTERVAL then
        let '(group, wall_hit) :=
          sidestep_loop (enemy_current_move_speed_x g) (enemies_group g) false in
        let speed :=
          if wall_hit then enemy_current_move_speed_x g * -1
          else enemy_current_move_speed_x g in
        let down := if wall_hit then true else move_enemies_down g in
        let '(group, lv, gs, down) :=
          if down then
            let '(group, lv, gs) :=
              descend_loop (rect_top (p_rect (player g))) group
                           (lives (player g)) (game_state g) in
            (group, lv, gs, false)
          else (group, lives (player g), game_state g, down) in
        mkGame (with_lives (player g) lv) (player_alive g) group
               (player_bullets g) (enemy_bullets g) (score g) speed down now
               (running g) gs (cues g)
      else g
  end.

(** ** Enemy shooting (lines 337-339)

    [rolls] holds the outcomes of [random.random() < ENEMY_SHOOT_CHANCE] in
    the order of the calls, one per enemy. *)
Fixpoint enemy_shooting_loop (group : list Enemy) (rolls : list bool)
  : list Bullet * list Cue :=
  match group with
  | [] => ([], [])
  | enemy :: rest =>
      let (bullets, played) := enemy_shooting_loop rest (tl rolls) in
      if hd false rolls then (Enemy_shoot enemy :: bullets, enemy_shoot :: played)
      else (bullets, played)
  end.

Definition enemy_shooting (rolls : list bool) (g : Game) : Game :=
  let (bullets, played) := enemy_shooting_loop (enemies_group g) rolls in
  mkGame (player g) (player_alive g) (enemies_group g) (player_bullets g)
         (enemy_bullets g ++ bullets) (score g) (enemy_current_move_speed_x g)
         (move_enemies_down g) (last_enemy_move_time g) (running g)
         (game_state g) (cues g ++ played).

(** ** Collision detection (lines 341-358) *)

(** [pygame.sprite.spritecollide(sprite, group, True)]: the sprites of
    [group] that overlap [r] are killed and returned; the second component is
    what is left of the group. *)
Definition spritecollide (r : Rect) (group : list Bullet)
  : list Bullet * list Bullet :=
  partition (fun b => colliderect r (b_rect b)) group.

(** [pygame.sprite.groupcollide(groupa, groupb, True, True)]: for every
    sprite of [groupa] in turn, [spritecollide] against what is left of
    [groupb]; a sprite with a collision is killed and entered in the
    dictionary.  The result is the dictionary (in insertion order), what is
    left of [groupa] and what is left of [groupb]. *)
Fixpoint groupcollide (groupa : list Enemy) (groupb : list Bullet)
  : list (Enemy * list Bullet) * list Enemy * list Bullet :=
  match groupa with
  | [] => ([], [], groupb)
  | a :: rest =>
      let (collision, groupb) := spritecollide (e_rect a) groupb in
      let '(crashed, left_a, left_b) := groupcollide rest groupb in
      match collision with
      | [] => (crashed, a :: left_a, left_b)
      | _ :: _ => ((a, collision) :: crashed, left_a, left_b)
      end
  end.

(** Lines 344-347: the loop over the enemies hit. *)
Fixpoint score_loop (hits : list (Enemy * list Bullet)) (sc : Z) : Z * list Cue :=
  match hits with
  | [] => (sc, [])
  | _ :: rest =>
      let (sc', played) := score_loop rest (sc + 100) in
      (sc', enemy_destroyed :: played)
  end.

Definition bullets_hit_enemies (g : Game) : Game :=
  let '(hits, group, bullets) := groupcollide (enemies_group g) (player_bullets g) in
  let (sc, played) := score_loop hits (score g) in
  mkGame (player g) (player_alive g) group bullets (enemy_bullets g) sc
         (enemy_current_move_speed_x g) (move_enemies_down g)
         (last_enemy_move_time g) (running g) (game_state g)
         (cues g ++ played).

(** Lines 351-358: the loop over the bullets that hit the player; the
    third component says whether the player is still in [all_sprites]. *)
Fixpoint player_hit_loop (hits : list Bullet) (lv : Z) (gs : Phase) (alive : bool)
  : Z * Phase * bool * list Cue :=
  match hits with
  | [] => (lv, gs, alive, [])
  | _ :: rest =>
      let lv := lv - 1 in
      let '(gs, alive) := if lv <=? 0 then (game_over, false) else (gs, alive) in
      let '(lv, gs, alive, played) := player_hit_loop rest lv gs alive in
      (lv, gs, alive, player_hit :: played)
  end.

Definition bullets_hit_player (g : Game) : Game :=
  let (hits, bullets) := spritecollide (p_rect (player g)) (enemy_bullets g) in
  let '(lv, gs, alive, played) :=
    player_hit_loop hits (lives (player g)) (game_state g) (player_alive g) in
  mkGame (with_lives (player g) lv) alive (enemies_group g) (player_bullets g)
         bullets (score g) (enemy_current_move_speed_x g) (move_enemies_down g)
         (last_enemy_move_time g) (running g) gs (cues g ++ played).

(** Lines 361-363 *)
Definition check_win (g : Game) : Game :=
  match enemies_group g, game_state g with
  | [], playing =>
      mkGame (player g) (player_alive g) (enemies_group g) (player_bullets g)
             (enemy_bullets g) (score g) (enemy_current_move_speed_x g)
             (move_enemies_down g) (last_enemy_move_time g) (running g) win
             (cues g)
  | _, _ => g
  end.

(** ** One pass of the main loop *)

Record Inputs := mkInputs {
  events : list (Event * Z);       (* pygame.event.get(), line 286 *)
  keystate : Keys;                 (* pygame.key.get_pressed(), line 116 *)
  ticks : Z;                       (* pygame.time.get_ticks(), line 313 *)
  rolls : list bool;               (* random.random() < ENEMY_SHOOT_CHANCE *)
  screen_events : list (list Event) (* the polls of an end screen *)
}.

(** Lines 308-363: what the loop body does once the events are handled and
    the game is being played. *)
Definition frame (inp : Inputs) (g : Game) : Game :=
  let g := all_sprites_update (keystate inp) g in
  let g := enemy_movement (ticks inp) g in
  let g := enemy_shooting (rolls inp) g in
  let g := bullets_hit_enemies g in
  let g := bullets_hit_player g in
  check_win g.

(** [game_over_screen] and [win_screen] differ in what they draw; their
    input loop is the same.  One [for] loop over the events of a poll: [None]
    is [sys.exit()], otherwise the value of [waiting_for_input]. *)
Fixpoint screen_poll (evs : list Event) (waiting_for_input : bool) : option bool :=
  match evs with
  | [] => Some waiting_for_input
  | QUIT :: _ => None
  | KEYUP K_q :: _ => None
  | KEYUP K_r :: rest => screen_poll rest false
  | _ :: rest => screen_poll rest waiting_for_input
  end.

Inductive ScreenResult := screen_returned | screen_exit | screen_waiting.

(** The [while waiting_for_input] loop over the polls at hand. *)
Fixpoint end_screen (polls : list (list Event)) : ScreenResult :=
  match polls with
  | [] => screen_waiting
  | evs :: rest =>
      match screen_poll evs true with
      | None => screen_exit
      | Some false => screen_returned
      | Some true => end_screen rest
      end
  end.

Inductive Outcome :=
| Continue (g : Game)   (* the loop goes round again *)
| ReturnTrue            (* main_game returns True *)
| SysExit               (* sys.exit() *)
| Waiting (g : Game).   (* an end screen is up and no key decided yet *)

(** Lines 282-376: the body of [while running], with the loop test that
    follows it. *)
Definition loop_iteration (inp : Inputs) (g : Game) : Outcome :=
  match handle_events (events inp) g with
  | None => ReturnTrue
  | Some g =>
      match game_state g with
      | playing =>
          let g := frame inp g in
          if running g then Continue g else SysExit
      | game_over | win =>
          match end_screen (screen_events inp) with
          | screen_returned => ReturnTrue
          | screen_exit => SysExit
          | screen_waiting => Waiting g
          end
      end
  end.

(** ** The program (lines 379-383) *)

Inductive Process :=
| InGame (g : Game)     (* inside the loop of main_game *)
| OnScreen (g : Game)   (* inside the loop of an end screen *)
| Exited.

(** [while main_game(): ...]: a [True] from [main_game] calls it again, and
    that call starts from [main_game_init]. *)
Definition program_step (inp : Inputs) (t_player t_enemy : Z) (p : Process) : Process :=
  match p with
  | InGame g =>
      match loop_iteration inp g with
      | Continue g' => InGame g'
      | ReturnTrue => InGame (main_game_init t_player t_enemy)
      | SysExit => Exited
      | Waiting g' => OnScreen g'
      end
  | OnScreen g =>
      match end_screen (screen_events inp) with
      | screen_returned => InGame (main_game_init t_player t_enemy)
      | screen_exit => Exited
      | screen_waiting => OnScreen g
      end
  | Exited => Exited
  end.

(** A run of the program over a list of inputs, one per step; every step
    that restarts reads the clock [t] twice. *)
Fixpoint run (steps : list (Inputs * Z)) (p : Process) : Process :=
  match steps with
  | [] => p
  | (inp, t) :: rest => run rest (program_step inp t t p)
  end.

(** * Vocabulary of the properties *)

(** The enemy's edge is past the left or the right border (line 318). *)
Definition breaches_wall (e : Enemy) : bool :=
  (rect_right (e_rect e) >? SCREEN_WIDTH) || (rect_left (e_rect e) <? 0).

(** The enemy's bottom edge is level with the player's top edge, or below
    (line 328). *)
Definition reaches_player (player_top : Z) (e : Enemy) : bool :=
  rect_bottom (e_rect e) >=? player_top.

(** The formation after the sideways move of a step, and after the drop
    that follows it in a step with descent. *)
Definition sidestepped (g : Game) : list Enemy :=
  map (Enemy_shift_x (enemy_current_move_speed_x g)) (enemies_group g).

Definition dropped (g : Game) : list Enemy :=
  map (Enemy_shift_y ENEMY_MOVE_DOWN_STEP) (sidestepped g).

(** The bullet one update later. *)
Definition Bullet_moved (b : Bullet) : Bullet :=
  mkBullet (mkRect (rect_x (b_rect b)) (rect_y (b_rect b) + speed_y b)
                   (rect_w (b_rect b)) (rect_h (b_rect b)))
           (speed_y b).

(** The bullet is wholly above the top or wholly below the bottom of the
    screen (line 185). *)
Definition off_screen (b : Bullet) : bool :=
  (rect_bottom (b_rect b) <? 0) || (rect_top (b_rect b) >? SCREEN_HEIGHT).

Definition overlaps_enemy (b : Bullet) (e : Enemy) : bool :=
  colliderect (e_rect e) (b_rect b).

Definition overlaps_some_enemy (group : list Enemy) (b : Bullet) : bool :=
  existsb (overlaps_enemy b) group.

Definition overlaps_player (p : Player) (b : Bullet) : bool :=
  colliderect (p_rect p) (b_rect b).

(** The state of a frame after the sprites' update and the enemy movement,
    and the one the pass of the enemy bullets against the player starts
    from. *)
Definition after_movement (inp : Inputs) (g : Game) : Game :=
  enemy_movement (ticks inp) (all_sprites_update (keystate inp) g).

Definition before_player_pass (inp : Inputs) (g : Game) : Game :=
  bullets_hit_enemies (enemy_shooting (rolls inp) (after_movement inp g)).

(** Several frames in a row. *)
Fixpoint iterate {I S : Type} (f : I -> S -> S) (inps : list I) (s : S) : S :=
  match inps with
  | [] => s
  | inp :: rest => iterate f rest (f inp s)
  end.

Definition frames : list Inputs -> Game -> Game := iterate frame.

(** The enemy [create_enemies] puts at [row], [col]. *)
Definition grid_enemy (row col : Z) : Enemy :=
  mkEnemy (mkRect (110 + col * ENEMY_SPACING_X) (50 + row * ENEMY_SPACING_Y)
                  ENEMY_WIDTH ENEMY_HEIGHT) row.

Definition no_keys : Keys := mkKeys false false false false.
Definition left_key : Keys := mkKeys true false false false.
Definition right_key : Keys := mkKeys false false true false.

(** A frame without events, keys or enemy shots, at clock reading [t]. *)
Definition quiet_inputs (t : Z) : Inputs := mkInputs [] no_keys t [] [].

(** ** Scenarios *)

(** One life left, the player four pixels left of its first place, and two
    enemy bullets 2 pixels apart straight above it, both one update away from
    its top edge. *)
Definition two_bullets_game : Game :=
  mkGame (mkPlayer (mkRect 371 560 PLAYER_WIDTH PLAYER_HEIGHT) 0 1 250 0) true
         [grid_enemy 3 4; grid_enemy 4 4]
         []
         [mkBullet (mkRect 368 544 BULLET_WIDTH BULLET_HEIGHT) BULLET_SPEED;
          mkBullet (mkRect 368 542 BULLET_WIDTH BULLET_HEIGHT) BULLET_SPEED]
         0 ENEMY_MOVE_SPEED_X false 0 true playing [].

(** A play from the start of a game, 16 ms a frame: the player steps left
    once, and the five enemies of the fifth column shoot in frames 1, 8, 15,
    21 and 28, top row first, which brings the five bullets to the player in
    the same frame. *)
Definition only_enemy (k : nat) : list bool := repeat false k ++ [true].

Definition volley_inputs (n : nat) : Inputs :=
  mkInputs [] (if Nat.eqb n 1 then left_key else no_keys) (16 * Z.of_nat n)
           (if Nat.eqb n 1 then only_enemy 4
            else if Nat.eqb n 8 then only_enemy 14
            else if Nat.eqb n 15 then only_enemy 24
            else if Nat.eqb n 21 then only_enemy 34
            else if Nat.eqb n 28 then only_enemy 44
            else [])
           [].

Definition volley (k : nat) : list (Inputs * Z) :=
  map (fun n => (volley_inputs n, 0)) (seq 1 k).

(** Two enemies 2 pixels apart and one bullet of the player across the gap,
    overlapping both. *)
Definition crowded_game : Game :=
  mkGame (Player_init 0) true
         [mkEnemy (mkRect 100 100 ENEMY_WIDTH ENEMY_HEIGHT) 0;
          mkEnemy (mkRect 142 100 ENEMY_WIDTH ENEMY_HEIGHT) 0]
         [mkBullet (mkRect 139 105 BULLET_WIDTH BULLET_HEIGHT) (- BULLET_SPEED)]
         []
         0 ENEMY_MOVE_SPEED_X false 0 true playing [].

(** Three enemies moving right, two of them in one column whose right edge
    is on the border: the next step takes both past it. *)
Definition two_at_the_wall_game : Game :=
  mkGame (Player_init 0) true
         [mkEnemy (mkRect 700 130 ENEMY_WIDTH ENEMY_HEIGHT) 2;
          mkEnemy (mkRect 760 130 ENEMY_WIDTH ENEMY_HEIGHT) 2;
          mkEnemy (mkRect 760 170 ENEMY_WIDTH ENEMY_HEIGHT) 3]
         [] [] 0 ENEMY_MOVE_SPEED_X false 0 true playing [].

(** The start of a game with two bullets of the player in the air: one that
    its next update takes into the bottom enemy of the fifth column, and one
    between two columns that passes the bottom row by. *)
Definition aimed_shot_game : Game :=
  mkGame (Player_init 0) true create_enemies
         [mkBullet (mkRect 368 232 BULLET_WIDTH BULLET_HEIGHT) (- BULLET_SPEED);
          mkBullet (mkRect 398 232 BULLET_WIDTH BULLET_HEIGHT) (- BULLET_SPEED)]
         [] 0 ENEMY_MOVE_SPEED_X false 0 true playing [].

(** The restart key pressed in the main loop, at clock reading [t]. *)
Definition restart_inputs (t : Z) : Inputs :=
  mkInputs [(KEYDOWN K_r, t)] no_keys t [] [].

(** The formation one step from the right border and one drop from the
    player's row, the player at the right border, and a bullet the player
    has just shot. *)
Definition last_descent_game : Game :=
  mkGame (mkPlayer (mkRect 750 560 PLAYER_WIDTH PLAYER_HEIGHT) 0 3 250 0) true
         [mkEnemy (mkRect 700 530 ENEMY_WIDTH ENEMY_HEIGHT) 4;
          mkEnemy (mkRect 760 530 ENEMY_WIDTH ENEMY_HEIGHT) 4]
         [mkBullet (mkRect 773 545 BULLET_WIDTH BULLET_HEIGHT) (- BULLET_SPEED)]
         []
         0 ENEMY_MOVE_SPEED_X false 0 true playing [].

(** The frame in which the formation of a game left alone comes level with
    the player when it steps in every frame: 111 steps to the right border,
    then 32 crossings of 222 steps. *)
Definition frames_to_reach_player : nat := Z.to_nat (111 + 32 * 222).

(** A play from the start of a game in which every frame comes 500 ms after
    the one before, so that the formation steps in every frame: the player
    goes to the right border, nobody shoots, and in the frame
    [frames_to_reach_player] the player shoots. *)
Definition march_inputs (n : nat) : Inputs :=
  mkInputs (if Nat.eqb n frames_to_reach_player
            then [(KEYDOWN K_SPACE, 500 * Z.of_nat n)] else [])
           (if Nat.leb n 94 then right_key else no_keys)
           (500 * Z.of_nat n) [] [].

Definition march (k : nat) : list (Inputs * Z) :=
  map (fun n => (march_inputs n, 0)) (seq 1 k).

(** What a program in a game shows of it. *)
Definition in_game (p : Process) (P : Game -> Prop) : Prop :=
  match p with
  | InGame g => P g
  | _ => False
  end.

(** ** Vocabulary of the further properties *)

(** [n] calls of [update] on a group of bullets. *)
Definition updates (n : nat) (group : list Bullet) : list Bullet :=
  Nat.iter n update_bullets group.

(** The events that end the program from an end screen, and the one that
    lets the screen return. *)
Definition screen_quits (ev : Event) : bool :=
  match ev with
  | QUIT | KEYUP K_q => true
  | _ => false
  end.

Definition screen_restarts (ev : Event) : bool :=
  match ev with
  | KEYUP K_r => true
  | _ => false
  end.

(** The enemies whose roll says shoot, in the order of the group. *)
Definition shooters (group : list Enemy) (rl : list bool) : list Enemy :=
  map fst (filter snd (combine group rl)).

(** An enemy moved by [dx], [dy], and the enemies of the first grid moved so. *)
Definition Enemy_shift (dx dy : Z) (e : Enemy) : Enemy :=
  mkEnemy (mkRect (rect_x (e_rect e) + dx) (rect_y (e_rect e) + dy)
                  (rect_w (e_rect e)) (rect_h (e_rect e)))
          (enemy_type e).

Definition on_grid (dx dy : Z) (e : Enemy) : Prop :=
  exists row col,
    0 <= row < ENEMY_ROWS /\ 0 <= col < ENEMY_COLS /\
    e = Enemy_shift dx dy (grid_enemy row col).

(** What holds of the sprites of a game from its start on. *)
Definition player_ok (p : Player) : Prop :=
  rect_y (p_rect p) = SCREEN_HEIGHT - PLAYER_HEIGHT - 20 /\
  rect_w (p_rect p) = PLAYER_WIDTH /\
  rect_h (p_rect p) = PLAYER_HEIGHT /\
  0 <= rect_x (p_rect p) <= SCREEN_WIDTH - PLAYER_WIDTH /\
  shoot_delay p = 250.

Definition bullet_ok (direction : Z) (b : Bullet) : Prop :=
  rect_w (b_rect b) = BULLET_WIDTH /\
  rect_h (b_rect b) = BULLET_HEIGHT /\
  speed_y b = BULLET_SPEED * direction.

Definition within_borders (lo hi : Z) (e : Enemy) : Prop :=
  lo <= rect_left (e_rect e) /\ rect_right (e_rect e) <= hi.

Definition formation_ok (g : Game) : Prop :=
  NoDup (enemies_group g) /\
  (exists dx dy, 0 <= dy /\ Forall (on_grid dx dy) (enemies_group g)) /\
  move_enemies_down g = false /\
  ((enemy_current_move_speed_x g = 1 /\
    Forall (within_borders (-1) SCREEN_WIDTH) (enemies_group g)) \/
   (enemy_current_move_speed_x g = -1 /\
    Forall (within_borders 0 (SCREEN_WIDTH + 1)) (enemies_group g))).

Definition well_formed (g : Game) : Prop :=
  player_ok (player g) /\
  Forall (bullet_ok (-1)) (player_bullets g) /\
  Forall (bullet_ok 1) (enemy_bullets g) /\
  formation_ok g.

Definition process_ok (p : Process) : Prop :=
  match p with
  | InGame g | OnScreen g => well_formed g
  | Exited => True
  end.

(** * The loops, in closed form *)

Section Loops.

Lemma Bullet_update_spec (b : Bullet) :
  Bullet_update b = (Bullet_moved b, off_screen (Bullet_moved b)).
Proof. reflexivity. Qed.

Lemma update_bullets_spec (group : list Bullet) :
  update_bullets group =
  filter (fun b => negb (off_screen b)) (map Bullet_moved group).
Proof.
  unfold update_bullets.
  induction group as [|b group IH]; [reflexivity|].
  cbn [flat_map map filter]. rewrite IH, Bullet_update_spec.
  now destruct (off_screen (Bullet_moved b)).
Qed.

Lemma sidestep_loop_spec (dx : Z) (group : list Enemy) (wall_hit : bool) :
  sidestep_loop dx group wall_hit =
  (map (Enemy_shift_x dx) group,
   wall_hit || existsb breaches_wall (map (Enemy_shift_x dx) group)).
Proof.
  revert wall_hit.
  induction group as [|e group IH]; intro wall_hit; cbn [sidestep_loop map existsb].
  - now rewrite orb_false_r.
  - rewrite IH. f_equal. fold (breaches_wall (Enemy_shift_x dx e)).
    destruct (breaches_wall (Enemy_shift_x dx e)), wall_hit; reflexivity.
Qed.

Lemma descend_loop_spec (player_top : Z) (group : list Enemy) (lv : Z) (gs : Phase) :
  let group' := map (Enemy_shift_y ENEMY_MOVE_DOWN_STEP) group in
  descend_loop player_top group lv gs =
  if existsb (reaches_player player_top) group'
  then (group', 0, game_over) else (group', lv, gs).
Proof.
  revert lv gs.
  induction group as [|e group IH]; intros lv gs; cbn [descend_loop map existsb].
  - reflexivity.
  - fold (reaches_player player_top (Enemy_shift_y ENEMY_MOVE_DOWN_STEP e)).
    destruct (reaches_player player_top (Enemy_shift_y ENEMY_MOVE_DOWN_STEP e));
      rewrite IH; cbn zeta;
      destruct (existsb (reaches_player player_top)
                        (map (Enemy_shift_y ENEMY_MOVE_DOWN_STEP) group));
      reflexivity.
Qed.

Lemma score_loop_spec (hits : list (Enemy * list Bullet)) (sc : Z) :
  score_loop hits sc =
  (sc + 100 * Z.of_nat (length hits), repeat enemy_destroyed (length hits)).
Proof.
  revert sc. induction hits as [|h hits IH]; intro sc.
  - cbn. f_equal. lia.
  - cbn [score_loop length repeat]. rewrite IH. f_equal. lia.
Qed.

Lemma player_hit_loop_spec (hits : list Bullet) (lv : Z) (gs : Phase) (alive : bool) :
  let lv' := lv - Z.of_nat (length hits) in
  player_hit_loop hits lv gs alive =
  match hits with
  | [] => (lv, gs, alive, [])
  | _ :: _ =>
      if lv' <=? 0 then (lv', game_over, false, repeat player_hit (length hits))
      else (lv', gs, alive, repeat player_hit (length hits))
  end.
Proof.
  revert lv gs alive.
  induction hits as [|h hits IH]; intros lv gs alive; [reflexivity|].
  cbn [player_hit_loop]. cbn zeta.
  destruct (lv - 1 <=? 0) eqn:E1; rewrite IH; cbn zeta;
    destruct hits as [|h' hits].
  - cbn [length repeat]. replace (lv - Z.of_nat 1) with (lv - 1) by lia.
    rewrite E1. reflexivity.
  - replace (lv - 1 - Z.of_nat (length (h' :: hits)))
      with (lv - Z.of_nat (length (h :: h' :: hits)))
      by (cbn [length]; lia).
    assert ((lv - Z.of_nat (length (h :: h' :: hits)) <=? 0) = true) as ->
        by (apply Z.leb_le; apply Z.leb_le in E1; cbn [length]; lia).
    destruct (lv - 1 - Z.of_nat (length (h' :: hits)) <=? 0); reflexivity.
  - cbn [length repeat]. replace (lv - Z.of_nat 1) with (lv - 1) by lia.
    rewrite E1. reflexivity.
  - replace (lv - 1 - Z.of_nat (length (h' :: hits)))
      with (lv - Z.of_nat (length (h :: h' :: hits)))
      by (cbn [length]; lia).
    destruct (lv - Z.of_nat (length (h :: h' :: hits)) <=? 0); reflexivity.
Qed.

End Loops.

(** * Player shooting *)

Lemma shoot_request_cooling (now : Z) (g : Game) :
  now - last_shot_time (player g) <= shoot_delay (player g) ->
  shoot_request now g = g.
Proof.
  intro H. unfold shoot_request, Player_shoot.
  destruct (Z.gtb_spec (now - last_shot_time (player g)) (shoot_delay (player g)));
    [lia|].
  destruct g; cbn. now rewrite !app_nil_r.
Qed.

Lemma shoot_request_ready (now : Z) (g : Game) :
  now - last_shot_time (player g) > shoot_delay (player g) ->
  shoot_request now g =
  mkGame (with_last_shot_time (player g) now) (player_alive g) (enemies_group g)
         (player_bullets g ++
            [Bullet_init (rect_centerx (p_rect (player g)))
                         (rect_top (p_rect (player g))) (-1)])
         (enemy_bullets g) (score g) (enemy_current_move_speed_x g)
         (move_enemies_down g) (last_enemy_move_time g) (running g)
         (game_state g) (cues g ++ [player_shoot]).
Proof.
  intro H. unfold shoot_request, Player_shoot.
  destruct (Z.gtb_spec (now - last_shot_time (player g)) (shoot_delay (player g)));
    [reflexivity|lia].
Qed.

(** C5.  With the cooldown of 250 ms, a shoot request adds a bullet to the
    player's bullets if and only if more than 250 ms have passed since the
    last successful shot ([last_shot_time], which only a successful request
    sets).  A successful request appends exactly one bullet,
    sets the time of the last shot to the present and plays the cue
    [player_shoot]; a request during the cooldown leaves the whole state as it
    was.  After a successful shot at t = 0 the request at t = 100 changes
    nothing and the request at t = 260 adds a bullet. *)
Theorem shoot_rate_limited (g : Game) :
  shoot_delay (player g) = 250 ->
  (forall now,
      (player_bullets (shoot_request now g) <> player_bullets g <->
       now - last_shot_time (player g) > 250) /\
      (now - last_shot_time (player g) > 250 ->
       exists b,
         player_bullets (shoot_request now g) = player_bullets g ++ [b] /\
         last_shot_time (player (shoot_request now g)) = now /\
         cues (shoot_request now g) = cues g ++ [player_shoot]) /\
      (now - last_shot_time (player g) <= 250 -> shoot_request now g = g)) /\
  (0 - last_shot_time (player g) > 250 ->
   let g0 := shoot_request 0 g in
   length (player_bullets g0) = S (length (player_bullets g)) /\
   shoot_request 100 g0 = g0 /\
   length (player_bullets (shoot_request 260 (shoot_request 100 g0))) =
   S (length (player_bullets g0))).
Proof.
  intro Hd. split.
  - intro now. repeat split.
    + intro Hne.
      destruct (Z_le_gt_dec (now - last_shot_time (player g)) 250) as [Hle|Hgt];
        [|exact Hgt].
      exfalso. apply Hne. rewrite shoot_request_cooling; [reflexivity|lia].
    + intro Hgt. rewrite shoot_request_ready by lia. cbn [player_bullets].
      intro Heq. apply (f_equal (@length Bullet)) in Heq.
      rewrite length_app in Heq. cbn in Heq. lia.
    + intro Hgt. rewrite shoot_request_ready by lia.
      eexists. cbn. repeat split; reflexivity.
    + intro Hle. apply shoot_request_cooling. lia.
  - intro H0. cbn zeta.
    rewrite (shoot_request_ready 0 g) by lia.
    set (g0 := mkGame _ _ _ _ _ _ _ _ _ _ _ _).
    assert (Hd0 : shoot_delay (player g0) = 250) by exact Hd.
    assert (Hl0 : last_shot_time (player g0) = 0) by reflexivity.
    repeat split.
    + subst g0. cbn [player_bullets]. rewrite length_app. cbn. lia.
    + apply shoot_request_cooling. lia.
    + rewrite (shoot_request_cooling 100 g0) by lia.
      rewrite (shoot_request_ready 260 g0) by lia.
      cbn [player_bullets]. rewrite length_app. cbn. lia.
Qed.

(** Events handled while the player is cooling down add no bullet. *)
Lemma handle_events_cooling (evs : list (Event * Z)) :
  forall g,
    game_state g = playing ->
    (forall ev t, In (ev, t) evs ->
                  t - last_shot_time (player g) <= shoot_delay (player g)) ->
    exists g', handle_events evs g = Some g' /\
               player g' = player g /\ player_bullets g' = player_bullets g.
Proof.
  induction evs as [|[ev now] evs IH]; intros g Hg Hall.
  - exists g. repeat split.
  - assert (Hrest : forall ev' t, In (ev', t) evs ->
                                  t - last_shot_time (player g) <= shoot_delay (player g))
      by (intros ev' t Hin; apply (Hall ev' t); now right).
    cbn [handle_events]. rewrite Hg.
    destruct ev as [|key|key|]; try (now apply IH).
    + destruct (IH (stop_running g) Hg Hrest) as (g' & H1 & H2 & H3).
      exists g'. now repeat split.
    + assert (Hcool : shoot_request now g = g)
        by (apply shoot_request_cooling; apply (Hall (KEYDOWN key) now); now left).
      destruct key; rewrite ?Hcool; now apply IH.
Qed.

(** C10.  A request made 250 ms or less after the player was created (at
    the start of a game, which is also where every restart leads) produces no
    bullet and changes nothing: the time of the last shot starts as the time
    of creation.  So the events of a frame, however many shoot keys are among
    them, add no bullet while the clock is within those 250 ms.  The first
    request that succeeds is one made more than 250 ms after the creation. *)
Theorem no_shot_right_after_creation (t_player t_enemy now : Z) :
  last_shot_time (Player_init t_player) = t_player /\
  (now - t_player <= 250 ->
   Player_shoot now (Player_init t_player) = (Player_init t_player, None, []) /\
   shoot_request now (main_game_init t_player t_enemy) =
   main_game_init t_player t_enemy) /\
  (now - t_player > 250 ->
   exists b,
     Player_shoot now (Player_init t_player) =
     (with_last_shot_time (Player_init t_player) now, Some b, [player_shoot]) /\
     player_bullets (shoot_request now (main_game_init t_player t_enemy)) = [b]) /\
  (forall evs,
      (forall ev t, In (ev, t) evs -> t - t_player <= 250) ->
      exists g', handle_events evs (main_game_init t_player t_enemy) = Some g' /\
                 player g' = Player_init t_player /\ player_bullets g' = []).
Proof.
  split; [reflexivity|]. split; [|split; [|intros evs Hall;
    exact (handle_events_cooling evs (main_game_init t_player t_enemy) eq_refl Hall)]].
  - intro H. split.
    + unfold Player_shoot. cbn [last_shot_time shoot_delay Player_init].
      destruct (Z.gtb_spec (now - t_player) 250); [lia|reflexivity].
    + apply shoot_request_cooling. cbn. lia.
  - intro H. eexists. split.
    + unfold Player_shoot. cbn [last_shot_time shoot_delay Player_init].
      destruct (Z.gtb_spec (now - t_player) 250); [reflexivity|lia].
    + rewrite shoot_request_ready by (cbn; lia). reflexivity.
Qed.

(** * The formation *)

Section Formation.

Variables (now : Z) (g : Game).

Lemma enemy_movement_early :
  now - last_enemy_move_time g < ENEMY_MOVE_INTERVAL ->
  enemy_movement now g = g.
Proof.
  intro H. unfold enemy_movement.
  destruct (enemies_group g); [reflexivity|].
  destruct (Z.geb_spec (now - last_enemy_move_time g) ENEMY_MOVE_INTERVAL);
    [lia|reflexivity].
Qed.

Lemma enemy_movement_no_enemy :
  enemies_group g = [] -> enemy_movement now g = g.
Proof. intro H. unfold enemy_movement. now rewrite H. Qed.

Hypothesis some_enemy : enemies_group g <> [].
Hypothesis due : ENEMY_MOVE_INTERVAL <= now - last_enemy_move_time g.

Lemma enemy_movement_due :
  enemy_movement now g =
  let wall_hit := existsb breaches_wall (sidestepped g) in
  let reached :=
    existsb (reaches_player (rect_top (p_rect (player g)))) (dropped g) in
  if wall_hit || move_enemies_down g then
    mkGame (with_lives (player g) (if reached then 0 else lives (player g)))
           (player_alive g) (dropped g) (player_bullets g) (enemy_bullets g)
           (score g)
           (if wall_hit then enemy_current_move_speed_x g * -1
            else enemy_current_move_speed_x g)
           false now (running g)
           (if reached then game_over else game_state g) (cues g)
  else
    mkGame (with_lives (player g) (lives (player g))) (player_alive g)
           (sidestepped g) (player_bullets g) (enemy_bullets g) (score g)
           (enemy_current_move_speed_x g) false now (running g) (game_state g)
           (cues g).
Proof.
  unfold dropped, sidestepped. cbv zeta.
  unfold enemy_movement.
  destruct (Z.geb_spec (now - last_enemy_move_time g) ENEMY_MOVE_INTERVAL);
    [|lia].
  rewrite sidestep_loop_spec. cbn [orb].
  destruct (enemies_group g) as [|e0 group] eqn:E; [contradiction|].
  set (es := map (Enemy_shift_x (enemy_current_move_speed_x g)) (e0 :: group)).
  destruct (existsb breaches_wall es) eqn:Hw; cbn [orb].
  - rewrite descend_loop_spec. cbv zeta.
    destruct (existsb _ (map (Enemy_shift_y ENEMY_MOVE_DOWN_STEP) es));
      reflexivity.
  - destruct (move_enemies_down g) eqn:Hd.
    + rewrite descend_loop_spec. cbv zeta.
      destruct (existsb _ (map (Enemy_shift_y ENEMY_MOVE_DOWN_STEP) es));
        reflexivity.
    + reflexivity.
Qed.

(** A step without descent: no wall hit and no descent pending. *)
Lemma enemy_movement_sideways :
  existsb breaches_wall (sidestepped g) = false ->
  move_enemies_down g = false ->
  enemy_movement now g =
  mkGame (with_lives (player g) (lives (player g))) (player_alive g)
         (sidestepped g) (player_bullets g) (enemy_bullets g) (score g)
         (enemy_current_move_speed_x g) false now (running g) (game_state g)
         (cues g).
Proof.
  intros Hw Hd. rewrite enemy_movement_due. cbv zeta.
  rewrite Hw, Hd. reflexivity.
Qed.

(** A step with descent: a wall hit, or a descent pending. *)
Lemma enemy_movement_descent :
  existsb breaches_wall (sidestepped g) || move_enemies_down g = true ->
  let wall_hit := existsb breaches_wall (sidestepped g) in
  let reached :=
    existsb (reaches_player (rect_top (p_rect (player g)))) (dropped g) in
  enemy_movement now g =
  mkGame (with_lives (player g) (if reached then 0 else lives (player g)))
         (player_alive g) (dropped g) (player_bullets g) (enemy_bullets g)
         (score g)
         (if wall_hit then enemy_current_move_speed_x g * -1
          else enemy_current_move_speed_x g)
         false now (running g)
         (if reached then game_over else game_state g) (cues g).
Proof.
  intros Hd. rewrite enemy_movement_due. cbv zeta. rewrite Hd. reflexivity.
Qed.

End Formation.

Lemma breach_found (g : Game) :
  (exists e, In e (enemies_group g) /\
             (rect_right (e_rect e) + enemy_current_move_speed_x g > SCREEN_WIDTH \/
              rect_left (e_rect e) + enemy_current_move_speed_x g < 0)) ->
  existsb breaches_wall (sidestepped g) = true.
Proof.
  intros (e & Hin & H). apply existsb_exists.
  exists (Enemy_shift_x (enemy_current_move_speed_x g) e).
  split; [now apply in_map|].
  unfold breaches_wall, Enemy_shift_x, rect_right, rect_left in *. cbn.
  apply orb_true_iff. destruct H; [left; apply Z.gtb_lt|right; apply Z.ltb_lt]; lia.
Qed.

Lemma reach_found (g : Game) :
  (exists e, In e (enemies_group g) /\
             rect_bottom (e_rect e) + ENEMY_MOVE_DOWN_STEP >=
             rect_top (p_rect (player g))) ->
  existsb (reaches_player (rect_top (p_rect (player g)))) (dropped g) = true.
Proof.
  intros (e & Hin & H). apply existsb_exists.
  exists (Enemy_shift_y ENEMY_MOVE_DOWN_STEP
            (Enemy_shift_x (enemy_current_move_speed_x g) e)).
  split; [now apply in_map, in_map|].
  unfold reaches_player, Enemy_shift_y, Enemy_shift_x, rect_bottom in *. cbn.
  apply Z.geb_le. lia.
Qed.

Lemma in_not_nil {A : Type} (x : A) (l : list A) : In x l -> l <> [].
Proof. intros H ->. exact H. Qed.

(** What the sprites' update leaves alone. *)
Lemma all_sprites_update_formation (k : Keys) (g : Game) :
  enemies_group (all_sprites_update k g) = enemies_group g /\
  enemy_current_move_speed_x (all_sprites_update k g) = enemy_current_move_speed_x g /\
  move_enemies_down (all_sprites_update k g) = move_enemies_down g /\
  last_enemy_move_time (all_sprites_update k g) = last_enemy_move_time g /\
  game_state (all_sprites_update k g) = game_state g /\
  rect_top (p_rect (player (all_sprites_update k g))) = rect_top (p_rect (player g)).
Proof.
  repeat split. cbn.
  destruct (player_alive g); [|reflexivity].
  unfold Player_update, with_rect, set_right, set_left, set_x, rect_top. cbn.
  repeat match goal with |- context [if ?c then _ else _] => destruct c end;
    reflexivity.
Qed.

Lemma sidestepped_update (k : Keys) (g : Game) :
  sidestepped (all_sprites_update k g) = sidestepped g.
Proof. reflexivity. Qed.

Lemma dropped_update (k : Keys) (g : Game) :
  dropped (all_sprites_update k g) = dropped g.
Proof. reflexivity. Qed.

Lemma frame_phases (inp : Inputs) (g : Game) :
  frame inp g =
  check_win (bullets_hit_player (bullets_hit_enemies
    (enemy_shooting (rolls inp) (after_movement inp g)))).
Proof. reflexivity. Qed.

(** C4.  When a formation step is due and its sideways move takes the edge
    of some enemy past the left or the right border, that step negates the
    horizontal step, moves every enemy by the old horizontal step and down by
    [ENEMY_MOVE_DOWN_STEP], once each however many enemies are past the
    border, and leaves no descent pending: the [rect_x] of every enemy is the
    one before plus the old step, its [rect_y] the one before plus 10, and
    its size and type are kept.  Within a frame the shooting and the two
    collision passes start from that state. *)
Theorem wall_bounce_descends_in_same_step (inp : Inputs) (g : Game) :
  ENEMY_MOVE_INTERVAL <= ticks inp - last_enemy_move_time g ->
  (exists e, In e (enemies_group g) /\
             (rect_right (e_rect e) + enemy_current_move_speed_x g > SCREEN_WIDTH \/
              rect_left (e_rect e) + enemy_current_move_speed_x g < 0)) ->
  let g' := enemy_movement (ticks inp) g in
  let g1 := after_movement inp g in
  enemy_current_move_speed_x g' = - enemy_current_move_speed_x g /\
  enemies_group g' =
    map (fun e => Enemy_shift_y ENEMY_MOVE_DOWN_STEP
                    (Enemy_shift_x (enemy_current_move_speed_x g) e))
        (enemies_group g) /\
  map (fun e => rect_x (e_rect e)) (enemies_group g') =
    map (fun e => rect_x (e_rect e) + enemy_current_move_speed_x g) (enemies_group g) /\
  map (fun e => rect_y (e_rect e)) (enemies_group g') =
    map (fun e => rect_y (e_rect e) + 10) (enemies_group g) /\
  map (fun e => (rect_w (e_rect e), rect_h (e_rect e), enemy_type e)) (enemies_group g') =
    map (fun e => (rect_w (e_rect e), rect_h (e_rect e), enemy_type e)) (enemies_group g) /\
  move_enemies_down g' = false /\
  last_enemy_move_time g' = ticks inp /\
  enemy_current_move_speed_x g1 = enemy_current_move_speed_x g' /\
  enemies_group g1 = enemies_group g' /\
  move_enemies_down g1 = false /\
  frame inp g =
    check_win (bullets_hit_player (bullets_hit_enemies
      (enemy_shooting (rolls inp) g1))).
Proof.
  intros Hdue Hbreach. cbv zeta.
  assert (Hne : enemies_group g <> [])
    by (destruct Hbreach as (e & Hin & _); exact (in_not_nil e _ Hin)).
  pose proof (breach_found g Hbreach) as Hw.
  destruct (all_sprites_update_formation (keystate inp) g)
    as (Ees & Edx & Edown & Elast & _ & _).
  assert (Hg' := enemy_movement_descent (ticks inp) g Hne Hdue).
  rewrite Hw in Hg'. specialize (Hg' eq_refl). cbv zeta in Hg'.
  assert (Hg1 := enemy_movement_descent (ticks inp)
                   (all_sprites_update (keystate inp) g)).
  rewrite sidestepped_update, dropped_update, Ees, Edx, Elast, Hw in Hg1.
  specialize (Hg1 Hne Hdue eq_refl). cbv zeta in Hg1.
  fold (after_movement inp g) in Hg1.
  split; [rewrite Hg'; cbn; lia|].
  split; [rewrite Hg'; cbn; unfold dropped, sidestepped; now rewrite map_map|].
  split; [rewrite Hg'; cbn [enemies_group]; unfold dropped, sidestepped;
          rewrite !map_map; apply map_ext; intro e; reflexivity|].
  split; [rewrite Hg'; cbn [enemies_group]; unfold dropped, sidestepped;
          rewrite !map_map; apply map_ext; intro e; reflexivity|].
  split; [rewrite Hg'; cbn [enemies_group]; unfold dropped, sidestepped;
          rewrite !map_map; apply map_ext; intro e; reflexivity|].
  split; [now rewrite Hg'|].
  split; [now rewrite Hg'|].
  split; [now rewrite Hg', Hg1|].
  split; [now rewrite Hg', Hg1|].
  split; [now rewrite Hg1|].
  apply frame_phases.
Qed.

(** * The collision passes *)

Lemma spritecollide_spec (r : Rect) (group : list Bullet) :
  spritecollide r group =
  (filter (fun b => colliderect r (b_rect b)) group,
   filter (fun b => negb (colliderect r (b_rect b))) group).
Proof. apply partition_as_filter. Qed.

Lemma filter_split_Permutation {A : Type} (f : A -> bool) (l : list A) :
  Permutation (filter f l ++ filter (fun x => negb (f x)) l) l.
Proof.
  induction l as [|x l IH]; [constructor|].
  cbn [filter]. destruct (f x); cbn [negb app].
  - now constructor.
  - etransitivity; [symmetry; apply Permutation_middle|]. now constructor.
Qed.

Lemma filter_neither {A : Type} (f h : A -> bool) (l : list A) :
  filter (fun x => negb (h x)) (filter (fun x => negb (f x)) l) =
  filter (fun x => negb (f x || h x)) l.
Proof.
  induction l as [|x l IH]; [reflexivity|].
  cbn [filter]. destruct (f x); cbn [negb orb filter]; rewrite IH; reflexivity.
Qed.

Lemma groupcollide_cons (a : Enemy) (rest : list Enemy) (groupb : list Bullet) :
  groupcollide (a :: rest) groupb =
  let hit := filter (fun b => overlaps_enemy b a) groupb in
  let '(crashed, left_a, left_b) :=
    groupcollide rest (filter (fun b => negb (overlaps_enemy b a)) groupb) in
  match hit with
  | [] => (crashed, a :: left_a, left_b)
  | _ :: _ => ((a, hit) :: crashed, left_a, left_b)
  end.
Proof. cbn [groupcollide]. now rewrite spritecollide_spec. Qed.

(** The bullets left are those that overlap no enemy of the group. *)
Lemma groupcollide_left_b (groupa : list Enemy) (groupb : list Bullet) :
  snd (groupcollide groupa groupb) =
  filter (fun b => negb (overlaps_some_enemy groupa b)) groupb.
Proof.
  revert groupb. induction groupa as [|a rest IH]; intro groupb.
  - cbn. symmetry. apply forallb_filter_id. now apply forallb_forall.
  - rewrite groupcollide_cons. cbv zeta.
    specialize (IH (filter (fun b => negb (overlaps_enemy b a)) groupb)).
    destruct (groupcollide rest _) as [[crashed left_a] left_b].
    cbn [snd] in IH.
    assert (left_b = filter (fun b => negb (overlaps_some_enemy (a :: rest) b)) groupb)
      as Hb by (rewrite IH; apply filter_neither).
    destruct (filter (fun b => overlaps_enemy b a) groupb); exact Hb.
Qed.

Lemma groupcollide_enemies (groupa : list Enemy) (groupb : list Bullet) :
  Permutation (map fst (fst (fst (groupcollide groupa groupb)))
               ++ snd (fst (groupcollide groupa groupb))) groupa.
Proof.
  revert groupb. induction groupa as [|a rest IH]; intro groupb; [constructor|].
  rewrite groupcollide_cons. cbv zeta.
  specialize (IH (filter (fun b => negb (overlaps_enemy b a)) groupb)).
  destruct (groupcollide rest _) as [[crashed left_a] left_b].
  cbn [fst snd] in IH.
  destruct (filter (fun b => overlaps_enemy b a) groupb); cbn [fst snd map app].
  - etransitivity; [symmetry; apply Permutation_middle|]. now constructor.
  - now constructor.
Qed.

Lemma groupcollide_bullets (groupa : list Enemy) (groupb : list Bullet) :
  Permutation (concat (map snd (fst (fst (groupcollide groupa groupb))))
               ++ snd (groupcollide groupa groupb)) groupb.
Proof.
  revert groupb. induction groupa as [|a rest IH]; intro groupb;
    [apply Permutation_refl|].
  rewrite groupcollide_cons. cbv zeta.
  specialize (IH (filter (fun b => negb (overlaps_enemy b a)) groupb)).
  destruct (groupcollide rest _) as [[crashed left_a] left_b].
  cbn [fst snd] in IH.
  pose proof (filter_split_Permutation (fun b => overlaps_enemy b a) groupb) as Hs.
  destruct (filter (fun b => overlaps_enemy b a) groupb) as [|h hit] eqn:Eh;
    cbn [fst snd map concat].
  - etransitivity; [exact IH|]. exact Hs.
  - rewrite <- app_assoc. etransitivity; [|exact Hs].
    now apply Permutation_app_head.
Qed.

Lemma groupcollide_crashed (groupa : list Enemy) (groupb : list Bullet) :
  forall e hit,
    In (e, hit) (fst (fst (groupcollide groupa groupb))) ->
    hit <> [] /\
    forall b, In b hit -> In b groupb /\ overlaps_enemy b e = true.
Proof.
  revert groupb. induction groupa as [|a rest IH]; intros groupb e hit;
    [intros []|].
  rewrite groupcollide_cons. cbv zeta.
  specialize (IH (filter (fun b => negb (overlaps_enemy b a)) groupb) e hit).
  destruct (groupcollide rest _) as [[crashed left_a] left_b].
  cbn [fst snd] in IH.
  assert (Hrest : In (e, hit) crashed ->
                  hit <> [] /\
                  forall b, In b hit -> In b groupb /\ overlaps_enemy b e = true).
  { intro Hin. destruct (IH Hin) as [Hne Hall]. split; [exact Hne|].
    intros b Hb. destruct (Hall b Hb) as [Hf Ho]. split; [|exact Ho].
    apply filter_In in Hf. apply Hf. }
  destruct (filter (fun b => overlaps_enemy b a) groupb) as [|h hit0] eqn:Eh;
    cbn [fst snd]; [exact Hrest|].
  intros [Heq|Hin]; [|exact (Hrest Hin)].
  injection Heq as <- <-. split; [discriminate|].
  intros b Hb. rewrite <- Eh in Hb. apply filter_In in Hb. exact Hb.
Qed.

Lemma length_concat_nonempty {A : Type} (ls : list (list A)) :
  (forall l, In l ls -> l <> []) -> (length ls <= length (concat ls))%nat.
Proof.
  induction ls as [|l ls IH]; intro H; [apply Nat.le_refl|].
  cbn [concat length]. rewrite length_app.
  assert (l <> []) by (apply H; now left).
  assert (length ls <= length (concat ls))%nat
    by (apply IH; intros l' Hl'; apply H; now right).
  destruct l; [contradiction|]. cbn [length]. lia.
Qed.

(** No more enemies are hit than bullets are used up. *)
Lemma groupcollide_count (groupa : list Enemy) (groupb : list Bullet) :
  (length (fst (fst (groupcollide groupa groupb))) + length (snd (groupcollide groupa groupb))
   <= length groupb)%nat.
Proof.
  pose proof (groupcollide_bullets groupa groupb) as Hp.
  apply Permutation_length in Hp. rewrite length_app in Hp.
  assert (length (map snd (fst (fst (groupcollide groupa groupb))))
          <= length (concat (map snd (fst (fst (groupcollide groupa groupb))))))%nat
    as Hc.
  { apply length_concat_nonempty. intros l Hl.
    apply in_map_iff in Hl. destruct Hl as ([e hit] & <- & Hin).
    apply (groupcollide_crashed _ _ _ _ Hin). }
  rewrite length_map in Hc. lia.
Qed.

Lemma bullets_hit_enemies_spec (g : Game) :
  let r := groupcollide (enemies_group g) (player_bullets g) in
  bullets_hit_enemies g =
  mkGame (player g) (player_alive g) (snd (fst r)) (snd r) (enemy_bullets g)
         (score g + 100 * Z.of_nat (length (fst (fst r))))
         (enemy_current_move_speed_x g) (move_enemies_down g)
         (last_enemy_move_time g) (running g) (game_state g)
         (cues g ++ repeat enemy_destroyed (length (fst (fst r)))).
Proof.
  cbv zeta. unfold bullets_hit_enemies.
  destruct (groupcollide (enemies_group g) (player_bullets g))
    as [[crashed left_a] left_b].
  rewrite score_loop_spec. reflexivity.
Qed.

Lemma bullets_hit_player_spec (g : Game) :
  let hits := filter (overlaps_player (player g)) (enemy_bullets g) in
  let lv := lives (player g) - Z.of_nat (length hits) in
  let dead := match hits with [] => false | _ :: _ => lv <=? 0 end in
  bullets_hit_player g =
  mkGame (with_lives (player g) lv)
         (if dead then false else player_alive g)
         (enemies_group g) (player_bullets g)
         (filter (fun b => negb (overlaps_player (player g) b)) (enemy_bullets g))
         (score g) (enemy_current_move_speed_x g) (move_enemies_down g)
         (last_enemy_move_time g) (running g)
         (if dead then game_over else game_state g)
         (cues g ++ repeat player_hit (length hits)).
Proof.
  cbv zeta. unfold bullets_hit_player. rewrite spritecollide_spec.
  fold (overlaps_player (player g)).
  change (fun b => colliderect (p_rect (player g)) (b_rect b))
    with (overlaps_player (player g)).
  rewrite player_hit_loop_spec. cbv zeta.
  destruct (filter (overlaps_player (player g)) (enemy_bullets g)) as [|h hits].
  - cbn [length repeat Z.of_nat]. rewrite Z.sub_0_r. reflexivity.
  - destruct (lives (player g) - Z.of_nat (length (h :: hits)) <=? 0);
      reflexivity.
Qed.

(** What the phases of a frame after the enemy movement do to the phase of
    the game, to the enemies and to the time of the last formation step. *)
Lemma enemy_shooting_keeps (rl : list bool) (g : Game) :
  game_state (enemy_shooting rl g) = game_state g /\
  enemies_group (enemy_shooting rl g) = enemies_group g /\
  player_bullets (enemy_shooting rl g) = player_bullets g /\
  player (enemy_shooting rl g) = player g /\
  score (enemy_shooting rl g) = score g /\
  last_enemy_move_time (enemy_shooting rl g) = last_enemy_move_time g /\
  enemy_current_move_speed_x (enemy_shooting rl g) = enemy_current_move_speed_x g /\
  enemy_bullets (enemy_shooting rl g) =
    enemy_bullets g ++ fst (enemy_shooting_loop (enemies_group g) rl).
Proof.
  unfold enemy_shooting.
  destruct (enemy_shooting_loop (enemies_group g) rl). repeat split.
Qed.

Lemma game_over_stays_hit_player (g : Game) :
  game_state g = game_over -> game_state (bullets_hit_player g) = game_over.
Proof.
  intro H. rewrite bullets_hit_player_spec. cbn [game_state].
  now destruct (match filter _ _ with [] => false | _ :: _ => _ end).
Qed.

Lemma game_over_stays_check_win (g : Game) :
  game_state g = game_over -> game_state (check_win g) = game_over.
Proof.
  intro H. unfold check_win. rewrite H. now destruct (enemies_group g).
Qed.

Lemma check_win_keeps (g : Game) :
  player (check_win g) = player g /\
  enemies_group (check_win g) = enemies_group g /\
  player_bullets (check_win g) = player_bullets g /\
  enemy_bullets (check_win g) = enemy_bullets g /\
  score (check_win g) = score g /\
  last_enemy_move_time (check_win g) = last_enemy_move_time g /\
  enemy_current_move_speed_x (check_win g) = enemy_current_move_speed_x g /\
  cues (check_win g) = cues g.
Proof.
  unfold check_win.
  destruct (enemies_group g) eqn:E, (game_state g); cbn; rewrite ?E; repeat split.
Qed.

Lemma game_over_stays_in_frame (inp : Inputs) (g : Game) :
  game_state (after_movement inp g) = game_over ->
  game_state (frame inp g) = game_over.
Proof.
  intro H. rewrite frame_phases.
  apply game_over_stays_check_win, game_over_stays_hit_player.
  rewrite bullets_hit_enemies_spec. cbn [game_state].
  now rewrite (proj1 (enemy_shooting_keeps _ _)).
Qed.

Lemma enemy_movement_keeps (now : Z) (g : Game) :
  player_bullets (enemy_movement now g) = player_bullets g /\
  enemy_bullets (enemy_movement now g) = enemy_bullets g /\
  p_rect (player (enemy_movement now g)) = p_rect (player g) /\
  score (enemy_movement now g) = score g /\
  cues (enemy_movement now g) = cues g.
Proof.
  destruct (enemies_group g) as [|e0 group] eqn:E.
  - now rewrite enemy_movement_no_enemy.
  - destruct (Z_lt_ge_dec (now - last_enemy_move_time g) ENEMY_MOVE_INTERVAL).
    + now rewrite enemy_movement_early.
    + rewrite enemy_movement_due by (rewrite ?E; try discriminate; lia).
      cbv zeta.
      destruct (existsb breaches_wall _ || move_enemies_down g); repeat split.
Qed.

(** C2.  The pass of the player's bullets against the enemies takes the
    enemies in turn; an enemy that overlaps bullets still in play is
    destroyed together with those bullets ([crashed] pairs each destroyed
    enemy with them), every bullet that overlaps an enemy is destroyed, and
    a bullet is used up by one enemy at most: the bullets of all the pairs
    and the bullets left make up the bullets of before, each once, so there
    are no more destroyed enemies than destroyed bullets.  One bullet that
    overlaps two enemies destroys the first and leaves the second. *)
Theorem bullet_kills_at_most_one_enemy
  (g : Game) (crashed : list (Enemy * list Bullet))
  (left_a : list Enemy) (left_b : list Bullet) :
  groupcollide (enemies_group g) (player_bullets g) = (crashed, left_a, left_b) ->
  enemies_group (bullets_hit_enemies g) = left_a /\
  player_bullets (bullets_hit_enemies g) = left_b /\
  score (bullets_hit_enemies g) = score g + 100 * Z.of_nat (length crashed) /\
  Permutation (map fst crashed ++ left_a) (enemies_group g) /\
  Permutation (concat (map snd crashed) ++ left_b) (player_bullets g) /\
  (forall e hit, In (e, hit) crashed ->
     hit <> [] /\ forall b, In b hit -> overlaps_enemy b e = true) /\
  (forall b, In b left_b <->
     In b (player_bullets g) /\
     forall e, In e (enemies_group g) -> overlaps_enemy b e = false) /\
  (length crashed + length left_b <= length (player_bullets g))%nat /\
  (forall e1 e2 b,
     enemies_group g = [e1; e2] -> player_bullets g = [b] ->
     overlaps_enemy b e1 = true -> overlaps_enemy b e2 = true ->
     crashed = [(e1, [b])] /\ left_a = [e2] /\ left_b = []).
Proof.
  intro Hr.
  pose proof (bullets_hit_enemies_spec g) as Hs. cbv zeta in Hs.
  pose proof (groupcollide_enemies (enemies_group g) (player_bullets g)) as He.
  pose proof (groupcollide_bullets (enemies_group g) (player_bullets g)) as Hb.
  pose proof (groupcollide_crashed (enemies_group g) (player_bullets g)) as Hc.
  pose proof (groupcollide_left_b (enemies_group g) (player_bullets g)) as Hl.
  pose proof (groupcollide_count (enemies_group g) (player_bullets g)) as Hn.
  rewrite Hr in Hs, He, Hb, Hc, Hl, Hn. cbn [fst snd] in *.
  split; [now rewrite Hs|]. split; [now rewrite Hs|]. split; [now rewrite Hs|].
  split; [exact He|]. split; [exact Hb|].
  split; [intros e hit Hin; destruct (Hc e hit Hin) as [H1 H2]; split;
          [exact H1|intros b Hin'; apply (H2 b Hin')]|].
  split.
  { intro b. rewrite Hl, filter_In, negb_true_iff. unfold overlaps_some_enemy.
    split; intros [Hin Hno]; (split; [exact Hin|]).
    - intros e Hine.
      destruct (overlaps_enemy b e) eqn:Eo; [|reflexivity].
      assert (existsb (overlaps_enemy b) (enemies_group g) = true)
        by (apply existsb_exists; now exists e).
      congruence.
    - destruct (existsb (overlaps_enemy b) (enemies_group g)) eqn:Ex;
        [|reflexivity].
      apply existsb_exists in Ex. destruct Ex as (e & Hine & Ho).
      rewrite (Hno e Hine) in Ho. discriminate. }
  split; [exact Hn|].
  intros e1 e2 b Hes Hbs H1 H2.
  rewrite Hes, Hbs in Hr.
  rewrite groupcollide_cons in Hr. cbv zeta in Hr. cbn [filter] in Hr.
  rewrite H1 in Hr. cbn [negb] in Hr.
  rewrite groupcollide_cons in Hr. cbn in Hr.
  injection Hr as <- <- <-. repeat split.
Qed.

(** * Bullets *)

Lemma frame_player_bullets (inp : Inputs) (g : Game) :
  player_bullets (frame inp g) =
  filter (fun b => negb (overlaps_some_enemy (enemies_group (after_movement inp g)) b))
         (filter (fun b => negb (off_screen b)) (map Bullet_moved (player_bullets g))).
Proof.
  rewrite frame_phases.
  rewrite (proj1 (proj2 (proj2 (check_win_keeps _)))).
  rewrite bullets_hit_player_spec. cbn [player_bullets].
  rewrite bullets_hit_enemies_spec. cbn [player_bullets].
  rewrite groupcollide_left_b.
  destruct (enemy_shooting_keeps (rolls inp) (after_movement inp g))
    as (_ & -> & -> & _).
  unfold after_movement at 2.
  rewrite (proj1 (enemy_movement_keeps _ _)). cbn [all_sprites_update player_bullets].
  now rewrite update_bullets_spec.
Qed.

Lemma frame_enemy_bullets (inp : Inputs) (g : Game) :
  let g1 := after_movement inp g in
  enemy_bullets (frame inp g) =
  filter (fun b => negb (overlaps_player (player g1) b))
         (filter (fun b => negb (off_screen b)) (map Bullet_moved (enemy_bullets g)))
  ++ filter (fun b => negb (overlaps_player (player g1) b))
            (fst (enemy_shooting_loop (enemies_group g1) (rolls inp))).
Proof.
  cbv zeta. rewrite frame_phases.
  rewrite (proj1 (proj2 (proj2 (proj2 (check_win_keeps _))))).
  rewrite bullets_hit_player_spec. cbn [enemy_bullets].
  rewrite bullets_hit_enemies_spec. cbn [enemy_bullets player].
  destruct (enemy_shooting_keeps (rolls inp) (after_movement inp g))
    as (_ & _ & _ & -> & _ & _ & _ & ->).
  rewrite filter_app. f_equal.
  unfold after_movement at 2.
  rewrite (proj1 (proj2 (enemy_movement_keeps _ _))).
  cbn [all_sprites_update enemy_bullets].
  now rewrite update_bullets_spec.
Qed.

(** C6.  [Bullet.update] adds the bullet's own [speed_y] to its vertical
    position and changes nothing else; the bullets the player shoots have
    [speed_y = - BULLET_SPEED], those of the enemies [speed_y = BULLET_SPEED],
    and an update keeps it.  Over a frame, a bullet of the player that was
    in play at its start is still in play at its end, one step further, if and
    only if it is neither wholly above the top nor wholly below the bottom of
    the screen nor overlaps an enemy of the formation as the enemy movement
    of that frame left it; an enemy bullet likewise, with the player as the
    target.  Enemy bullets shot in the frame do not move in it and stay
    unless they overlap the player. *)
Theorem bullet_moves_by_its_speed_until_removed (inp : Inputs) (g : Game) :
  let g1 := after_movement inp g in
  let shot := fst (enemy_shooting_loop (enemies_group g1) (rolls inp)) in
  let old_enemy_bullets :=
    filter (fun b => negb (off_screen b) && negb (overlaps_player (player g1) b))
           (map Bullet_moved (enemy_bullets g)) in
  (forall b,
      fst (Bullet_update b) = Bullet_moved b /\
      snd (Bullet_update b) = off_screen (Bullet_moved b) /\
      rect_y (b_rect (Bullet_moved b)) = rect_y (b_rect b) + speed_y b /\
      rect_x (b_rect (Bullet_moved b)) = rect_x (b_rect b) /\
      speed_y (Bullet_moved b) = speed_y b) /\
  (forall now p b,
      snd (fst (Player_shoot now p)) = Some b ->
      speed_y b = - BULLET_SPEED /\ speed_y b < 0) /\
  (forall e, speed_y (Enemy_shoot e) = BULLET_SPEED /\ 0 < speed_y (Enemy_shoot e)) /\
  player_bullets (frame inp g) =
    filter (fun b => negb (off_screen b) && negb (overlaps_some_enemy (enemies_group g1) b))
           (map Bullet_moved (player_bullets g)) /\
  (forall b, In b (player_bullets g) ->
     (In (Bullet_moved b) (player_bullets (frame inp g)) <->
      ~ (off_screen (Bullet_moved b) = true \/
         exists e, In e (enemies_group g1) /\ overlaps_enemy (Bullet_moved b) e = true))) /\
  enemy_bullets (frame inp g) =
    old_enemy_bullets ++
    filter (fun b => negb (overlaps_player (player g1) b)) shot /\
  (forall b, In b (enemy_bullets g) ->
     (In (Bullet_moved b) old_enemy_bullets <->
      ~ (off_screen (Bullet_moved b) = true \/
         overlaps_player (player g1) (Bullet_moved b) = true))).
Proof.
  cbv zeta.
  assert (Hff : forall (f h : Bullet -> bool) l,
             filter h (filter f l) = filter (fun b => f b && h b) l).
  { intros f h l. induction l as [|x l IH]; [reflexivity|].
    cbn [filter]. destruct (f x); cbn [filter andb]; now rewrite IH. }
  split; [intro b; repeat split|].
  split.
  { intros now p b. unfold Player_shoot.
    destruct (now - last_shot_time p >? shoot_delay p); cbn [fst snd];
      [|discriminate].
    intro H. injection H as <-. cbn. split; reflexivity. }
  split; [intro e; split; reflexivity|].
  assert (Hpb := frame_player_bullets inp g). rewrite Hff in Hpb.
  split; [exact Hpb|].
  split.
  { intros b Hin. rewrite Hpb, filter_In, andb_true_iff, !negb_true_iff.
    unfold overlaps_some_enemy. split.
    - intros (_ & Hoff & Hov) [Hoff'|(e & He & Hov')]; [congruence|].
      assert (existsb (overlaps_enemy (Bullet_moved b))
                      (enemies_group (after_movement inp g)) = true)
        by (apply existsb_exists; now exists e).
      congruence.
    - intro Hno. split; [now apply in_map|]. split.
      + destruct (off_screen (Bullet_moved b)); [exfalso; apply Hno; now left|reflexivity].
      + destruct (existsb _ _) eqn:Ex; [|reflexivity].
        exfalso. apply Hno. right. now apply existsb_exists in Ex. }
  assert (Heb := frame_enemy_bullets inp g). cbv zeta in Heb. rewrite Hff in Heb.
  split; [exact Heb|].
  intros b Hin. rewrite filter_In, andb_true_iff, !negb_true_iff. split.
  - intros (_ & Hoff & Hov) [H|H]; congruence.
  - intro Hno. split; [now apply in_map|]. split.
    + destruct (off_screen (Bullet_moved b)); [exfalso; apply Hno; now left|reflexivity].
    + destruct (overlaps_player _ _); [exfalso; apply Hno; now right|reflexivity].
Qed.

(** * Lives *)

(** C1, amended.  In the pass of the enemy bullets against the player,
    every bullet that overlaps the player is destroyed, plays [player_hit]
    and takes exactly one life: the counter after the frame is the counter
    the pass started from less the number of overlapping bullets.  The game
    is over as soon as a hit leaves the counter at 0 or below.  The counter is
    not clamped: it ends below 0 exactly when more bullets overlap the player
    in the frame than the counter held. *)
Theorem each_hit_takes_one_life (inp : Inputs) (g : Game) :
  let g0 := before_player_pass inp g in
  let hits := filter (overlaps_player (player g0)) (enemy_bullets g0) in
  frame inp g = check_win (bullets_hit_player g0) /\
  lives (player (frame inp g)) = lives (player g0) - Z.of_nat (length hits) /\
  enemy_bullets (frame inp g) =
    filter (fun b => negb (overlaps_player (player g0) b)) (enemy_bullets g0) /\
  cues (frame inp g) = cues g0 ++ repeat player_hit (length hits) /\
  (hits <> [] -> lives (player g0) - Z.of_nat (length hits) <= 0 ->
   game_state (frame inp g) = game_over) /\
  (hits = [] \/ 0 < lives (player g0) - Z.of_nat (length hits) ->
   game_state (bullets_hit_player g0) = game_state g0) /\
  (lives (player (frame inp g)) < 0 <->
   lives (player g0) < Z.of_nat (length hits)).
Proof.
  cbv zeta. set (g0 := before_player_pass inp g).
  assert (Hf : frame inp g = check_win (bullets_hit_player g0)) by reflexivity.
  destruct (check_win_keeps (bullets_hit_player g0))
    as (Hp & _ & _ & Heb & _ & _ & _ & Hc).
  pose proof (bullets_hit_player_spec g0) as Hs. cbv zeta in Hs.
  split; [exact Hf|]. rewrite Hf, Hp, Heb, Hc, Hs. cbn.
  split; [reflexivity|]. split; [reflexivity|]. split; [reflexivity|].
  split; [|split; [|lia]].
  - intros Hne Hle. apply game_over_stays_check_win. cbn [game_state].
    destruct (filter (overlaps_player (player g0)) (enemy_bullets g0));
      [contradiction|].
    now apply Z.leb_le in Hle as ->.
  - intros [->|Hpos]; [reflexivity|].
    destruct (filter (overlaps_player (player g0)) (enemy_bullets g0));
      [reflexivity|].
    destruct (Z.leb_spec (lives (player g0) - Z.of_nat (length (b :: l))) 0);
      [lia|reflexivity].
Qed.

(** * Game over by descent *)

(** C8.  When a formation step is due and the formation descends in it (an
    enemy is past a border after the sideways move, or a descent is pending)
    and the bottom edge of some enemy is, after the drop, level with the top
    edge of the player or below it, the enemy movement of that step sets the
    phase to [game_over] and the lives to 0, whatever the lives were, and the
    phase is still [game_over] at the end of the frame. *)
Theorem descent_onto_player_ends_game (inp : Inputs) (g : Game) :
  ENEMY_MOVE_INTERVAL <= ticks inp - last_enemy_move_time g ->
  (exists e, In e (enemies_group g) /\
             (rect_right (e_rect e) + enemy_current_move_speed_x g > SCREEN_WIDTH \/
              rect_left (e_rect e) + enemy_current_move_speed_x g < 0)) \/
  move_enemies_down g = true ->
  (exists e, In e (enemies_group g) /\
             rect_bottom (e_rect e) + ENEMY_MOVE_DOWN_STEP >=
             rect_top (p_rect (player g))) ->
  game_state (enemy_movement (ticks inp) g) = game_over /\
  lives (player (enemy_movement (ticks inp) g)) = 0 /\
  game_state (after_movement inp g) = game_over /\
  game_state (frame inp g) = game_over.
Proof.
  intros Hdue Hdown Hreach.
  assert (Hne : enemies_group g <> [])
    by (destruct Hreach as (e & Hin & _); exact (in_not_nil e _ Hin)).
  assert (Hd : existsb breaches_wall (sidestepped g) || move_enemies_down g = true).
  { destruct Hdown as [Hb| ->]; [|apply orb_true_r].
    now rewrite (breach_found g Hb). }
  pose proof (reach_found g Hreach) as Hr.
  destruct (all_sprites_update_formation (keystate inp) g)
    as (Ees & Edx & Edown & Elast & _ & Etop).
  assert (Hg' := enemy_movement_descent (ticks inp) g Hne Hdue Hd).
  cbv zeta in Hg'. rewrite Hr in Hg'.
  assert (Hg1 := enemy_movement_descent (ticks inp)
                   (all_sprites_update (keystate inp) g)).
  rewrite sidestepped_update, dropped_update, Ees, Edx, Edown, Elast, Etop in Hg1.
  specialize (Hg1 Hne Hdue Hd). cbv zeta in Hg1. rewrite Hr in Hg1.
  fold (after_movement inp g) in Hg1.
  assert (H1 : game_state (after_movement inp g) = game_over) by now rewrite Hg1.
  split; [now rewrite Hg'|]. split; [now rewrite Hg'|]. split; [exact H1|].
  now apply game_over_stays_in_frame.
Qed.

(** C3, amended.  In a frame whose enemy movement sets the phase to
    [game_over], the rest of the frame still runs on the state the movement
    left: the enemies shoot, the player's bullets destroy the enemies they
    overlap and score for them, the enemy bullets hit the player.  What the
    descent preempts is the win check: the phase at the end of the frame is
    [game_over], also when no enemy is left. *)
Theorem descent_game_over_preempts_win (inp : Inputs) (g : Game) :
  game_state (after_movement inp g) = game_over ->
  let g1 := enemy_shooting (rolls inp) (after_movement inp g) in
  let r := groupcollide (enemies_group g1) (player_bullets g1) in
  game_state (frame inp g) = game_over /\
  frame inp g = check_win (bullets_hit_player (bullets_hit_enemies g1)) /\
  enemies_group (frame inp g) = snd (fst r) /\
  score (frame inp g) = score (after_movement inp g) + 100 * Z.of_nat (length (fst (fst r))) /\
  (enemies_group (frame inp g) = [] -> game_state (frame inp g) <> win).
Proof.
  intro H. cbv zeta.
  pose proof (game_over_stays_in_frame inp g H) as Hgo.
  split; [exact Hgo|]. split; [apply frame_phases|].
  split; [|split; [|intros _; rewrite Hgo; discriminate]];
    rewrite frame_phases;
    destruct (check_win_keeps (bullets_hit_player (bullets_hit_enemies
               (enemy_shooting (rolls inp) (after_movement inp g)))))
      as (_ & He & _ & _ & Hs & _);
    rewrite ?He, ?Hs;
    rewrite bullets_hit_player_spec; cbn [enemies_group score];
    rewrite bullets_hit_enemies_spec; cbn [enemies_group score];
    rewrite ?(proj1 (proj2 (proj2 (proj2 (proj2 (enemy_shooting_keeps _ _))))));
    reflexivity.
Qed.

(** * The timing of the formation *)

Lemma groupcollide_left_a_incl (groupa : list Enemy) (groupb : list Bullet) :
  incl (snd (fst (groupcollide groupa groupb))) groupa.
Proof.
  intros e Hin.
  apply (Permutation_in e (groupcollide_enemies groupa groupb)).
  apply in_or_app. now right.
Qed.

(** A frame whose clock reading is less than the interval after the last
    step moves no enemy: the enemies it leaves are enemies it found, where
    they were, and the formation state is as before. *)
Lemma frame_without_step (inp : Inputs) (g : Game) :
  ticks inp - last_enemy_move_time g < ENEMY_MOVE_INTERVAL ->
  incl (enemies_group (frame inp g)) (enemies_group g) /\
  last_enemy_move_time (frame inp g) = last_enemy_move_time g /\
  enemy_current_move_speed_x (frame inp g) = enemy_current_move_speed_x g.
Proof.
  intro H.
  destruct (all_sprites_update_formation (keystate inp) g)
    as (Ees & Edx & _ & Elast & _ & _).
  assert (Ha : after_movement inp g = all_sprites_update (keystate inp) g)
    by (apply enemy_movement_early; now rewrite Elast).
  rewrite frame_phases.
  destruct (check_win_keeps (bullets_hit_player (bullets_hit_enemies
             (enemy_shooting (rolls inp) (after_movement inp g)))))
    as (_ & -> & _ & _ & _ & -> & -> & _).
  rewrite bullets_hit_player_spec.
  cbn [enemies_group last_enemy_move_time enemy_current_move_speed_x].
  rewrite bullets_hit_enemies_spec.
  cbn [enemies_group last_enemy_move_time enemy_current_move_speed_x].
  destruct (enemy_shooting_keeps (rolls inp) (after_movement inp g))
    as (_ & Es & _ & _ & _ & El & Ed & _).
  rewrite El, Ed, Ha, Elast, Edx. repeat split.
  intros e Hin. apply groupcollide_left_a_incl in Hin.
  rewrite Ha in Es. now rewrite Es, Ees in Hin.
Qed.

Lemma iterate_cons {I S : Type} (f : I -> S -> S) (inp : I) (inps : list I) (s : S) :
  iterate f (inp :: inps) s = iterate f inps (f inp s).
Proof. reflexivity. Qed.

Lemma frames_cons (inp : Inputs) (inps : list Inputs) (g : Game) :
  frames (inp :: inps) g = frames inps (frame inp g).
Proof. unfold frames. apply iterate_cons. Qed.

Lemma frames_without_step (inps : list Inputs) (g : Game) :
  Forall (fun inp => ticks inp - last_enemy_move_time g < ENEMY_MOVE_INTERVAL) inps ->
  incl (enemies_group (frames inps g)) (enemies_group g) /\
  last_enemy_move_time (frames inps g) = last_enemy_move_time g /\
  enemy_current_move_speed_x (frames inps g) = enemy_current_move_speed_x g.
Proof.
  revert g. induction inps as [|inp inps IH]; intros g H.
  - split; [apply incl_refl|split; reflexivity].
  - apply Forall_cons_iff in H. destruct H as [Hinp Hrest].
    destruct (frame_without_step inp g Hinp) as (Hi & Hl & Hd).
    rewrite frames_cons.
    rewrite <- Hl in Hrest.
    destruct (IH (frame inp g) Hrest) as (Hi' & Hl' & Hd').
    split; [|split].
    + intros e He. apply Hi, Hi', He.
    + now rewrite Hl'.
    + now rewrite Hd'.
Qed.

(** C7.  The enemy movement does nothing while the clock reading is less
    than [ENEMY_MOVE_INTERVAL] = 500 ms after the last step, however many
    frames are run: ten calls 1 ms apart leave the state as it was, and any
    frames run before the interval is over leave every enemy where it was.
    At a reading 500 ms or more after the last step, with an enemy alive,
    there is one step: every enemy moves sideways by the horizontal step, the
    time of the last step becomes that reading, and calls at readings less
    than 500 ms later do nothing more. *)
Theorem formation_steps_on_interval_only (g : Game) :
  let t0 := last_enemy_move_time g in
  (forall now, now - t0 < ENEMY_MOVE_INTERVAL -> enemy_movement now g = g) /\
  fold_left (fun s k => enemy_movement (t0 + k) s) [1; 2; 3; 4; 5; 6; 7; 8; 9; 10] g = g /\
  (forall inps,
      Forall (fun inp => ticks inp - t0 < ENEMY_MOVE_INTERVAL) inps ->
      incl (enemies_group (frames inps g)) (enemies_group g) /\
      last_enemy_move_time (frames inps g) = t0) /\
  (forall now,
      ENEMY_MOVE_INTERVAL <= now - t0 -> enemies_group g <> [] ->
      let g' := enemy_movement now g in
      map (fun e => rect_x (e_rect e)) (enemies_group g') =
        map (fun e => rect_x (e_rect e) + enemy_current_move_speed_x g) (enemies_group g) /\
      last_enemy_move_time g' = now /\
      forall later, later - now < ENEMY_MOVE_INTERVAL -> enemy_movement later g' = g') /\
  (enemies_group g <> [] ->
   map (fun e => rect_x (e_rect e)) (enemies_group (enemy_movement (t0 + 500) g)) =
   map (fun e => rect_x (e_rect e) + enemy_current_move_speed_x g) (enemies_group g)).
Proof.
  cbv zeta.
  assert (Hearly : forall now, now - last_enemy_move_time g < ENEMY_MOVE_INTERVAL ->
                               enemy_movement now g = g)
    by (intros; now apply enemy_movement_early).
  assert (Hstep : forall now,
      ENEMY_MOVE_INTERVAL <= now - last_enemy_move_time g -> enemies_group g <> [] ->
      map (fun e => rect_x (e_rect e)) (enemies_group (enemy_movement now g)) =
        map (fun e => rect_x (e_rect e) + enemy_current_move_speed_x g) (enemies_group g) /\
      last_enemy_move_time (enemy_movement now g) = now).
  { intros now Hdue Hne. rewrite enemy_movement_due by assumption. cbv zeta.
    destruct (existsb breaches_wall _ || move_enemies_down g);
      cbn [enemies_group last_enemy_move_time]; unfold dropped, sidestepped;
      rewrite !map_map;
      (split; [apply map_ext; intro e; reflexivity|reflexivity]). }
  split; [exact Hearly|].
  split.
  { cbn [fold_left]. unfold ENEMY_MOVE_INTERVAL in Hearly.
    repeat (rewrite Hearly by lia). reflexivity. }
  split.
  { intros inps H. destruct (frames_without_step inps g H) as (Hi & Hl & _).
    now split. }
  split.
  { intros now Hdue Hne. destruct (Hstep now Hdue Hne) as [Hx Hl].
    split; [exact Hx|]. split; [exact Hl|].
    intros later Hlater. apply enemy_movement_early. now rewrite Hl. }
  intro Hne. apply Hstep; [unfold ENEMY_MOVE_INTERVAL; lia|exact Hne].
Qed.

(** * Restart *)

Lemma handle_events_game_state (evs : list (Event * Z)) :
  forall g g', handle_events evs g = Some g' -> game_state g' = game_state g.
Proof.
  induction evs as [|[ev now] evs IH]; intros g g' H.
  - now injection H as <-.
  - cbn [handle_events] in H.
    destruct ev as [|key|key|].
    + now rewrite (IH _ _ H).
    + destruct (game_state g) eqn:Eg, key;
        try discriminate; rewrite (IH _ _ H); try assumption.
      all: unfold shoot_request; destruct (Player_shoot now (player g)) as [[? ?] ?];
        exact Eg.
    + now apply IH.
    + now apply IH.
Qed.

Lemma handle_events_restart (evs : list (Event * Z)) :
  forall g, game_state g <> playing ->
            In (KEYDOWN K_r) (map fst evs) ->
            handle_events evs g = None.
Proof.
  induction evs as [|[ev now] evs IH]; intros g Hg Hin; [destruct Hin|].
  cbn [handle_events]. cbn [map fst In] in Hin.
  destruct ev as [|key|key|].
  - destruct Hin as [Heq|Hin]; [discriminate|]. now apply IH.
  - destruct (game_state g) eqn:Eg; [contradiction| |];
      (destruct key; try reflexivity;
       (destruct Hin as [Heq|Hin]; [discriminate|]);
       apply IH; first [exact Hin | cbn; rewrite ?Eg; discriminate]).
  - destruct Hin as [Heq|Hin]; [discriminate|]. now apply IH.
  - destruct Hin as [Heq|Hin]; [discriminate|]. now apply IH.
Qed.

Lemma loop_iteration_terminal (inp : Inputs) (g : Game) :
  game_state g <> playing ->
  (loop_iteration inp g = ReturnTrue \/ loop_iteration inp g = SysExit \/
   exists g', loop_iteration inp g = Waiting g' /\ game_state g' = game_state g).
Proof.
  intro Hg. unfold loop_iteration.
  destruct (handle_events (events inp) g) as [g1|] eqn:E; [|now left].
  apply handle_events_game_state in E.
  destruct (game_state g1) eqn:E1; [congruence| |];
    (destruct (end_screen (screen_events inp));
     [now left|right; now left|
      right; right; exists g1; split; [reflexivity|congruence]]).
Qed.

Lemma create_enemies_grid (row col : Z) :
  0 <= row < ENEMY_ROWS -> 0 <= col < ENEMY_COLS ->
  In (grid_enemy row col) create_enemies.
Proof.
  unfold ENEMY_ROWS, ENEMY_COLS. intros Hr Hc.
  assert (Hrow : row = 0 \/ row = 1 \/ row = 2 \/ row = 3 \/ row = 4) by lia.
  assert (Hcol : col = 0 \/ col = 1 \/ col = 2 \/ col = 3 \/ col = 4 \/
                 col = 5 \/ col = 6 \/ col = 7 \/ col = 8 \/ col = 9) by lia.
  repeat (destruct Hrow as [->|Hrow]);
    repeat (destruct Hcol as [->|Hcol]);
    try subst row; try subst col;
    vm_compute; repeat (first [left; reflexivity | right]).
Qed.

(** C9.  From a game that is over or won, a step of the program that has
    the restart key among its key presses, or in which the end screen
    returns, leads into a game that is [main_game_init]; no step leads from
    there into any other game.  In that game the phase is [playing], the
    score 0, the lives 3, the horizontal step [ENEMY_MOVE_SPEED_X], no descent
    is pending, the enemies are the 50 of the grid of [ENEMY_ROWS] rows and
    [ENEMY_COLS] columns, and neither group of bullets has a bullet. *)
Theorem restart_resets_the_game (inp : Inputs) (t_player t_enemy : Z) (g : Game) :
  game_state g <> playing ->
  let fresh := main_game_init t_player t_enemy in
  (In (KEYDOWN K_r) (map fst (events inp)) ->
   program_step inp t_player t_enemy (InGame g) = InGame fresh) /\
  (end_screen (screen_events inp) = screen_returned ->
   program_step inp t_player t_enemy (InGame g) = InGame fresh /\
   program_step inp t_player t_enemy (OnScreen g) = InGame fresh) /\
  (forall g',
      program_step inp t_player t_enemy (InGame g) = InGame g' \/
      program_step inp t_player t_enemy (OnScreen g) = InGame g' ->
      g' = fresh) /\
  game_state fresh = playing /\
  score fresh = 0 /\
  lives (player fresh) = 3 /\
  enemy_current_move_speed_x fresh = ENEMY_MOVE_SPEED_X /\
  move_enemies_down fresh = false /\
  last_enemy_move_time fresh = t_enemy /\
  enemies_group fresh = create_enemies /\
  length (enemies_group fresh) = Z.to_nat (ENEMY_ROWS * ENEMY_COLS) /\
  (forall row col, 0 <= row < ENEMY_ROWS -> 0 <= col < ENEMY_COLS ->
                   In (grid_enemy row col) (enemies_group fresh)) /\
  player_bullets fresh = [] /\
  enemy_bullets fresh = [].
Proof.
  intro Hg. cbv zeta.
  split.
  { intro Hin. cbn [program_step]. unfold loop_iteration.
    now rewrite (handle_events_restart _ g Hg Hin). }
  split.
  { intro Hs. cbn [program_step]. rewrite Hs. split; [|reflexivity].
    unfold loop_iteration.
    destruct (handle_events (events inp) g) as [g1|] eqn:E; [|reflexivity].
    apply handle_events_game_state in E.
    destruct (game_state g1) eqn:E1; [congruence| |]; now rewrite Hs. }
  split.
  { intros g' [H|H]; cbn [program_step] in H.
    - destruct (loop_iteration_terminal inp g Hg) as [E|[E|(g1 & E & _)]];
        rewrite E in H; [now injection H as <-|discriminate|discriminate].
    - destruct (end_screen (screen_events inp));
        [now injection H as <-|discriminate|discriminate]. }
  repeat split. apply create_enemies_grid.
Qed.

(** * The claims that fail, at a concrete state *)

(** C1 as stated fails.  In [two_bullets_game] the game is being played
    with one life; both enemy bullets overlap the player after their update,
    each takes a life, and the frame ends with -1 lives.  The same from the
    start of a game: after the 81 frames of [volley] five bullets have hit in
    one frame and the lives are -2. *)
Lemma lives_go_below_zero :
  game_state two_bullets_game = playing /\
  lives (player two_bullets_game) = 1 /\
  lives (player (frame (quiet_inputs 16) two_bullets_game)) = -1 /\
  game_state (frame (quiet_inputs 16) two_bullets_game) = game_over /\
  in_game (run (volley 80) (InGame (main_game_init 0 0)))
          (fun g => game_state g = playing /\ lives (player g) = 3) /\
  in_game (run (volley 81) (InGame (main_game_init 0 0)))
          (fun g => game_state g = game_over /\ lives (player g) = -2).
Proof. vm_compute. repeat split. Qed.

(** C3 as stated fails.  In [last_descent_game] the game is being played;
    the enemy movement of the frame bounces off the right border, drops the
    formation onto the player's row and sets the phase to [game_over]; the
    collision pass that follows in the same frame destroys the enemy the
    player's bullet overlaps and scores 100 for it.  The same from the start
    of a game: the state [march] reaches just before the formation comes
    level with the player, and the frame that follows it. *)
Lemma enemy_destroyed_after_game_over :
  let g := last_descent_game in
  let inp := quiet_inputs 500 in
  game_state g = playing /\
  game_state (after_movement inp g) = game_over /\
  enemies_group (after_movement inp g) =
    [mkEnemy (mkRect 701 540 ENEMY_WIDTH ENEMY_HEIGHT) 4;
     mkEnemy (mkRect 761 540 ENEMY_WIDTH ENEMY_HEIGHT) 4] /\
  enemies_group (frame inp g) =
    [mkEnemy (mkRect 701 540 ENEMY_WIDTH ENEMY_HEIGHT) 4] /\
  score (after_movement inp g) = 0 /\
  score (frame inp g) = 100 /\
  cues (frame inp g) = [enemy_destroyed] /\
  in_game (run (march (pred frames_to_reach_player)) (InGame (main_game_init 0 0)))
          (fun g1 =>
             game_state g1 = playing /\ score g1 = 0 /\
             length (enemies_group g1) = 50%nat /\
             in_game (program_step (march_inputs frames_to_reach_player) 0 0 (InGame g1))
                     (fun g2 =>
                        game_state g2 = game_over /\ score g2 = 100 /\
                        length (enemies_group g2) = 49%nat)).
Proof. vm_compute. repeat split. Qed.

(** * The theorems at concrete states *)

Lemma shoot_rate_limited_witness :
  let g := main_game_init (-300) 0 in
  shoot_delay (player g) = 250 /\
  0 - last_shot_time (player g) > 250 /\
  shoot_request 100 (shoot_request 0 g) = shoot_request 0 g /\
  length (player_bullets (shoot_request 260 (shoot_request 100 (shoot_request 0 g)))) =
  S (length (player_bullets (shoot_request 0 g))).
Proof.
  cbv zeta.
  assert (H0 : 0 - last_shot_time (player (main_game_init (-300) 0)) > 250)
    by (cbn; lia).
  split; [reflexivity|]. split; [exact H0|].
  destruct (shoot_rate_limited (main_game_init (-300) 0) eq_refl) as [_ H].
  destruct (H H0) as (_ & H2 & H3). split; [exact H2|exact H3].
Defined.

Lemma no_shot_right_after_creation_witness :
  100 - 0 <= 250 /\
  Player_shoot 100 (Player_init 0) = (Player_init 0, None, []) /\
  shoot_request 100 (main_game_init 0 0) = main_game_init 0 0.
Proof.
  assert (H : 100 - 0 <= 250) by lia.
  split; [exact H|].
  destruct (no_shot_right_after_creation 0 0 100) as (_ & Hcool & _).
  exact (Hcool H).
Defined.

Lemma wall_bounce_descends_in_same_step_witness :
  let g := two_at_the_wall_game in
  let inp := quiet_inputs 500 in
  ENEMY_MOVE_INTERVAL <= ticks inp - last_enemy_move_time g /\
  map (fun e => rect_x (e_rect e)) (enemies_group g) = [700; 760; 760] /\
  map (fun e => rect_y (e_rect e)) (enemies_group g) = [130; 130; 170] /\
  map (fun e => rect_x (e_rect e)) (enemies_group (enemy_movement (ticks inp) g)) =
    [701; 761; 761] /\
  map (fun e => rect_y (e_rect e)) (enemies_group (enemy_movement (ticks inp) g)) =
    [140; 140; 180] /\
  enemy_current_move_speed_x g = 1 /\
  enemy_current_move_speed_x (enemy_movement (ticks inp) g) = -1 /\
  move_enemies_down (enemy_movement (ticks inp) g) = false /\
  map (fun e => rect_y (e_rect e)) (enemies_group (after_movement inp g)) =
    [140; 140; 180].
Proof.
  cbv zeta.
  assert (Hdue : ENEMY_MOVE_INTERVAL <=
                 ticks (quiet_inputs 500) - last_enemy_move_time two_at_the_wall_game)
    by (vm_compute; discriminate).
  split; [exact Hdue|]. split; [reflexivity|]. split; [reflexivity|].
  assert (Hbreach :
            exists e, In e (enemies_group two_at_the_wall_game) /\
                      (rect_right (e_rect e) + enemy_current_move_speed_x two_at_the_wall_game
                       > SCREEN_WIDTH \/
                       rect_left (e_rect e) + enemy_current_move_speed_x two_at_the_wall_game < 0)).
  { exists (mkEnemy (mkRect 760 170 ENEMY_WIDTH ENEMY_HEIGHT) 3).
    split; [right; right; left; reflexivity|left; reflexivity]. }
  destruct (wall_bounce_descends_in_same_step (quiet_inputs 500) two_at_the_wall_game
              Hdue Hbreach) as (Hs & _ & Hx & Hy & _ & Hflag & _ & _ & He1 & _).
  split; [rewrite Hx; reflexivity|].
  split; [rewrite Hy; reflexivity|].
  split; [reflexivity|].
  split; [rewrite Hs; reflexivity|].
  split; [exact Hflag|].
  rewrite He1, Hy. reflexivity.
Defined.

Lemma formation_steps_on_interval_only_witness :
  let g := main_game_init 0 0 in
  enemy_movement 499 g = g /\
  map (fun e => rect_x (e_rect e)) (enemies_group (enemy_movement 500 g)) =
  map (fun e => rect_x (e_rect e) + enemy_current_move_speed_x g) (enemies_group g).
Proof.
  cbv zeta.
  destruct (formation_steps_on_interval_only (main_game_init 0 0))
    as (Hearly & _ & _ & _ & Hstep).
  split.
  - apply Hearly. vm_compute. reflexivity.
  - apply Hstep. discriminate.
Defined.

Lemma descent_onto_player_ends_game_witness :
  let g := last_descent_game in
  let inp := quiet_inputs 500 in
  ENEMY_MOVE_INTERVAL <= ticks inp - last_enemy_move_time g /\
  lives (player g) = 3 /\
  game_state (enemy_movement (ticks inp) g) = game_over /\
  game_state (frame inp g) = game_over.
Proof.
  cbv zeta.
  assert (Hdue : ENEMY_MOVE_INTERVAL <=
                 ticks (quiet_inputs 500) - last_enemy_move_time last_descent_game)
    by (vm_compute; discriminate).
  split; [exact Hdue|]. split; [reflexivity|].
  assert (Hbreach :
            (exists e, In e (enemies_group last_descent_game) /\
                      (rect_right (e_rect e) + enemy_current_move_speed_x last_descent_game
                       > SCREEN_WIDTH \/
                       rect_left (e_rect e) + enemy_current_move_speed_x last_descent_game < 0))
            \/ move_enemies_down last_descent_game = true).
  { left. exists (mkEnemy (mkRect 760 530 ENEMY_WIDTH ENEMY_HEIGHT) 4).
    split; [right; left; reflexivity|left; reflexivity]. }
  assert (Hreach :
            exists e, In e (enemies_group last_descent_game) /\
                      rect_bottom (e_rect e) + ENEMY_MOVE_DOWN_STEP >=
                      rect_top (p_rect (player last_descent_game))).
  { exists (mkEnemy (mkRect 760 530 ENEMY_WIDTH ENEMY_HEIGHT) 4).
    split; [right; left; reflexivity|vm_compute; discriminate]. }
  destruct (descent_onto_player_ends_game (quiet_inputs 500) last_descent_game
              Hdue Hbreach Hreach) as (H1 & _ & _ & H4).
  split; [exact H1|exact H4].
Defined.

Lemma descent_game_over_preempts_win_witness :
  let g := last_descent_game in
  let inp := quiet_inputs 500 in
  game_state (after_movement inp g) = game_over /\
  game_state (frame inp g) = game_over.
Proof.
  cbv zeta.
  assert (H : game_state (after_movement (quiet_inputs 500) last_descent_game) = game_over)
    by reflexivity.
  split; [exact H|].
  exact (proj1 (descent_game_over_preempts_win (quiet_inputs 500) last_descent_game H)).
Defined.

Lemma restart_resets_the_game_witness :
  let g := frame (quiet_inputs 500) last_descent_game in
  game_state g <> playing /\
  score g = 100 /\
  program_step (restart_inputs 600) 600 600 (InGame g) = InGame (main_game_init 600 600).
Proof.
  cbv zeta.
  assert (H : game_state (frame (quiet_inputs 500) last_descent_game) <> playing)
    by (vm_compute; discriminate).
  split; [exact H|]. split; [reflexivity|].
  destruct (restart_resets_the_game (restart_inputs 600) 600 600 _ H) as (Hr & _).
  apply Hr. left. reflexivity.
Defined.

Lemma bullet_kills_at_most_one_enemy_witness :
  groupcollide (enemies_group crowded_game) (player_bullets crowded_game) =
    ([(mkEnemy (mkRect 100 100 ENEMY_WIDTH ENEMY_HEIGHT) 0,
       [mkBullet (mkRect 139 105 BULLET_WIDTH BULLET_HEIGHT) (- BULLET_SPEED)])],
     [mkEnemy (mkRect 142 100 ENEMY_WIDTH ENEMY_HEIGHT) 0], []) /\
  enemies_group (bullets_hit_enemies crowded_game) =
    [mkEnemy (mkRect 142 100 ENEMY_WIDTH ENEMY_HEIGHT) 0] /\
  player_bullets (bullets_hit_enemies crowded_game) = [] /\
  score (bullets_hit_enemies crowded_game) = 100.
Proof.
  assert (H : groupcollide (enemies_group crowded_game) (player_bullets crowded_game) =
    ([(mkEnemy (mkRect 100 100 ENEMY_WIDTH ENEMY_HEIGHT) 0,
       [mkBullet (mkRect 139 105 BULLET_WIDTH BULLET_HEIGHT) (- BULLET_SPEED)])],
     [mkEnemy (mkRect 142 100 ENEMY_WIDTH ENEMY_HEIGHT) 0], [])) by reflexivity.
  split; [exact H|].
  destruct (bullet_kills_at_most_one_enemy crowded_game _ _ _ H)
    as (H1 & H2 & H3 & _).
  split; [exact H1|]. split; [exact H2|exact H3].
Defined.

Lemma each_hit_takes_one_life_witness :
  let g := two_bullets_game in
  let inp := quiet_inputs 16 in
  let g0 := before_player_pass inp g in
  let hits := filter (overlaps_player (player g0)) (enemy_bullets g0) in
  hits <> [] /\
  lives (player g0) - Z.of_nat (length hits) <= 0 /\
  game_state (frame inp g) = game_over.
Proof.
  cbv zeta.
  set (g0 := before_player_pass (quiet_inputs 16) two_bullets_game).
  assert (H1 : filter (overlaps_player (player g0)) (enemy_bullets g0) <> [])
    by (vm_compute; discriminate).
  assert (H2 : lives (player g0)
               - Z.of_nat (length (filter (overlaps_player (player g0)) (enemy_bullets g0)))
               <= 0)
    by (vm_compute; discriminate).
  split; [exact H1|]. split; [exact H2|].
  destruct (each_hit_takes_one_life (quiet_inputs 16) two_bullets_game)
    as (_ & _ & _ & _ & Hover & _).
  exact (Hover H1 H2).
Defined.

Lemma bullet_moves_by_its_speed_until_removed_witness :
  let g := two_bullets_game in
  let inp := quiet_inputs 16 in
  let b := mkBullet (mkRect 368 544 BULLET_WIDTH BULLET_HEIGHT) BULLET_SPEED in
  In b (enemy_bullets g) /\
  ~ In (Bullet_moved b)
       (filter (fun b' => negb (off_screen b') &&
                          negb (overlaps_player (player (after_movement inp g)) b'))
               (map Bullet_moved (enemy_bullets g))) /\
  enemy_bullets (frame inp g) = [].
Proof.
  cbv zeta.
  set (b := mkBullet (mkRect 368 544 BULLET_WIDTH BULLET_HEIGHT) BULLET_SPEED).
  assert (Hin : In b (enemy_bullets two_bullets_game)) by (left; reflexivity).
  split; [exact Hin|].
  destruct (bullet_moves_by_its_speed_until_removed (quiet_inputs 16) two_bullets_game)
    as (_ & _ & _ & _ & _ & Heb & Hiff).
  split.
  - intro Hold. apply (proj1 (Hiff b Hin) Hold). right. reflexivity.
  - rewrite Heb. reflexivity.
Defined.

(** * Further properties of the code *)

(** ** The player *)

Lemma Player_update_clamped (k : Keys) (p : Player) :
  rect_w (p_rect p) <= SCREEN_WIDTH ->
  let p' := Player_update k p in
  0 <= rect_left (p_rect p') /\
  rect_right (p_rect p') <= SCREEN_WIDTH /\
  rect_y (p_rect p') = rect_y (p_rect p) /\
  rect_w (p_rect p') = rect_w (p_rect p) /\
  rect_h (p_rect p') = rect_h (p_rect p) /\
  lives p' = lives p /\
  shoot_delay p' = shoot_delay p /\
  last_shot_time p' = last_shot_time p.
Proof.
  intro Hw. cbv zeta.
  unfold Player_update, with_rect, with_speed_x, set_right, set_left, set_x,
    rect_left, rect_right.
  cbn [p_rect rect_x rect_y rect_w rect_h lives shoot_delay last_shot_time].
  destruct (K_LEFT k || K_a k), (K_RIGHT k || K_d k);
    repeat match goal with
           | |- context [?a <? ?b] =>
               destruct (Z.ltb_spec a b); cbn [rect_x rect_y rect_w rect_h]
           | |- context [?a >? ?b] =>
               destruct (Z.gtb_spec a b); cbn [rect_x rect_y rect_w rect_h]
           end;
    repeat split; unfold SCREEN_WIDTH in *; lia.
Qed.

(** X1.  [Player.update] leaves a player that is no wider than the screen
    inside the screen, wherever it was before, and changes nothing of it but
    the horizontal position and speed. *)
Theorem Player_update_stays_in_screen (k : Keys) (p : Player) :
  rect_w (p_rect p) <= SCREEN_WIDTH ->
  let p' := Player_update k p in
  0 <= rect_left (p_rect p') /\
  rect_right (p_rect p') <= SCREEN_WIDTH /\
  rect_y (p_rect p') = rect_y (p_rect p) /\
  rect_w (p_rect p') = rect_w (p_rect p) /\
  rect_h (p_rect p') = rect_h (p_rect p) /\
  lives p' = lives p /\
  shoot_delay p' = shoot_delay p /\
  last_shot_time p' = last_shot_time p.
Proof. exact (Player_update_clamped k p). Qed.

(** X2.  For a player inside the screen, [Player.update] moves it by
    [PLAYER_SPEED] to the right when a right key is held (also when a left
    key is held with it), to the left when only a left key is held, and not at
    all otherwise; the move stops at the border. *)
Theorem Player_update_follows_keys (k : Keys) (p : Player) :
  0 <= rect_left (p_rect p) -> rect_right (p_rect p) <= SCREEN_WIDTH ->
  let x := rect_x (p_rect p) in
  let p' := Player_update k p in
  (K_RIGHT k || K_d k = true ->
   speed_x p' = PLAYER_SPEED /\
   rect_x (p_rect p') = Z.min (x + PLAYER_SPEED) (SCREEN_WIDTH - rect_w (p_rect p))) /\
  (K_RIGHT k || K_d k = false -> K_LEFT k || K_a k = true ->
   speed_x p' = - PLAYER_SPEED /\
   rect_x (p_rect p') = Z.max (x - PLAYER_SPEED) 0) /\
  (K_RIGHT k || K_d k = false -> K_LEFT k || K_a k = false ->
   speed_x p' = 0 /\ rect_x (p_rect p') = x).
Proof.
  unfold rect_left, rect_right. intros Hl Hr. cbv zeta.
  unfold Player_update, with_rect, with_speed_x, set_right, set_left, set_x,
    rect_left, rect_right, PLAYER_SPEED, SCREEN_WIDTH in *.
  cbn [p_rect rect_x rect_y rect_w rect_h speed_x].
  repeat split; intros; 
    repeat match goal with H : _ || _ = _ |- _ => rewrite H; clear H end;
    try (destruct (K_LEFT k || K_a k));
    repeat match goal with
           | |- context [?a <? ?b] => destruct (Z.ltb_spec a b); cbn [rect_x rect_y rect_w rect_h]
           | |- context [?a >? ?b] => destruct (Z.gtb_spec a b); cbn [rect_x rect_y rect_w rect_h]
           end; lia.
Qed.

(** ** Bullets *)

(** X3.  A bullet starts clear of the sprite that shoots it: the player's
    bullet has its bottom edge on the player's top edge, an enemy's bullet
    its top edge on the enemy's bottom edge, so neither overlaps its shooter;
    both are [BULLET_WIDTH] by [BULLET_HEIGHT] and start 2 pixels left of the
    shooter's centre line. *)
Theorem new_bullet_clear_of_shooter :
  (forall now p b,
      snd (fst (Player_shoot now p)) = Some b ->
      rect_bottom (b_rect b) = rect_top (p_rect p) /\
      rect_x (b_rect b) = rect_centerx (p_rect p) - 2 /\
      bullet_ok (-1) b /\
      overlaps_player p b = false) /\
  (forall e,
      rect_top (b_rect (Enemy_shoot e)) = rect_bottom (e_rect e) /\
      rect_x (b_rect (Enemy_shoot e)) = rect_centerx (e_rect e) - 2 /\
      bullet_ok 1 (Enemy_shoot e) /\
      overlaps_enemy (Enemy_shoot e) e = false).
Proof.
  split.
  - intros now p b. unfold Player_shoot.
    destruct (now - last_shot_time p >? shoot_delay p); cbn [fst snd];
      [|discriminate].
    intro H. injection H as <-.
    split; [cbn; unfold rect_bottom, rect_top; cbn; lia|].
    split; [reflexivity|]. split; [repeat split|].
    unfold overlaps_player, colliderect.
    assert ((rect_top (p_rect p) <?
             rect_bottom (b_rect (Bullet_init (rect_centerx (p_rect p))
                                              (rect_top (p_rect p)) (-1)))) = false) as ->.
    { apply Z.ltb_ge. cbn. unfold rect_bottom, rect_top. cbn. lia. }
    now rewrite andb_false_r.
  - intro e. split; [reflexivity|]. split; [reflexivity|].
    split; [repeat split|].
    unfold overlaps_enemy, colliderect.
    assert ((rect_bottom (e_rect e) >? rect_top (b_rect (Enemy_shoot e))) = false) as ->.
    { rewrite Z.gtb_ltb. apply Z.ltb_ge.
      cbn. unfold rect_bottom, rect_top. cbn. lia. }
    now rewrite andb_false_r.
Qed.

Lemma updates_trace (n : nat) (group : list Bullet) (b' : Bullet) :
  In b' (updates n group) ->
  exists b, In b group /\
            speed_y b' = speed_y b /\
            rect_x (b_rect b') = rect_x (b_rect b) /\
            rect_w (b_rect b') = rect_w (b_rect b) /\
            rect_h (b_rect b') = rect_h (b_rect b) /\
            rect_y (b_rect b') = rect_y (b_rect b) + Z.of_nat n * speed_y b /\
            (n <> 0%nat -> off_screen b' = false).
Proof.
  revert b'. induction n as [|n IH]; intros b' Hin.
  - exists b'. cbn in Hin. repeat split; try assumption; try lia;
      intro H; now contradict H.
  - change (updates (S n) group) with (update_bullets (updates n group)) in Hin.
    rewrite update_bullets_spec in Hin.
    apply filter_In in Hin. destruct Hin as [Hin Hoff].
    apply in_map_iff in Hin. destruct Hin as (b1 & <- & Hin1).
    destruct (IH b1 Hin1) as (b & Hb & Hs & Hx & Hw & Hh & Hy & _).
    exists b. cbn [Bullet_moved speed_y b_rect rect_x rect_y rect_w rect_h].
    repeat split; try assumption.
    + rewrite Hy, Hs. lia.
    + intros _. now apply negb_true_iff in Hoff.
Qed.

(** X4.  No bullet flies for ever: a group of bullets that go up from not
    below the bottom of the screen, or down from not above its top, at
    [BULLET_SPEED] a frame and no taller than the screen, is empty after [n]
    updates once [n * BULLET_SPEED] exceeds the height of the screen plus
    that of a bullet. *)
Theorem bullets_leave_the_screen (n : nat) (group : list Bullet) :
  SCREEN_HEIGHT + BULLET_HEIGHT < Z.of_nat n * BULLET_SPEED ->
  Forall (fun b =>
            rect_h (b_rect b) = BULLET_HEIGHT /\
            ((speed_y b = - BULLET_SPEED /\ rect_top (b_rect b) <= SCREEN_HEIGHT) \/
             (speed_y b = BULLET_SPEED /\ 0 <= rect_bottom (b_rect b)))) group ->
  updates n group = [].
Proof.
  intros Hn Hall.
  destruct (updates n group) as [|b' rest] eqn:E; [reflexivity|exfalso].
  assert (Hin : In b' (updates n group)) by (rewrite E; now left).
  destruct (updates_trace n group b' Hin) as (b & Hb & Hs & Hx & Hw & Hh & Hy & Hoff).
  rewrite Forall_forall in Hall. destruct (Hall b Hb) as [Hbh Hdir].
  assert (Hn0 : n <> 0%nat)
    by (intros ->; unfold SCREEN_HEIGHT, BULLET_HEIGHT, BULLET_SPEED in Hn; lia).
  specialize (Hoff Hn0). unfold off_screen in Hoff.
  apply orb_false_iff in Hoff. destruct Hoff as [H1 H2].
  apply Z.ltb_ge in H1. rewrite Z.gtb_ltb in H2. apply Z.ltb_ge in H2.
  unfold rect_bottom, rect_top, SCREEN_HEIGHT, BULLET_HEIGHT, BULLET_SPEED in *.
  destruct Hdir as [[Hsp Hpos]|[Hsp Hpos]]; rewrite Hsp in Hy; nia.
Qed.

Lemma bullets_leave_the_screen_witness :
  SCREEN_HEIGHT + BULLET_HEIGHT < Z.of_nat 103 * BULLET_SPEED /\
  updates 103 [Bullet_init 400 560 (-1); Bullet_init 130 70 1] = [].
Proof.
  assert (H : SCREEN_HEIGHT + BULLET_HEIGHT < Z.of_nat 103 * BULLET_SPEED)
    by (vm_compute; reflexivity).
  split; [exact H|].
  apply (bullets_leave_the_screen 103 _ H).
  repeat constructor; vm_compute; discriminate.
Defined.

(** ** Enemy shooting *)

Lemma enemy_shooting_loop_spec (group : list Enemy) :
  forall rl,
    enemy_shooting_loop group rl =
    (map Enemy_shoot (shooters group rl),
     repeat enemy_shoot (length (shooters group rl))).
Proof.
  induction group as [|e group IH]; intro rl; [reflexivity|].
  cbn [enemy_shooting_loop]. rewrite IH.
  destruct rl as [|r rl]; cbn [hd tl].
  - unfold shooters. cbn [combine filter map length repeat].
    now destruct group.
  - unfold shooters. cbn [combine filter snd].
    destruct r; reflexivity.
Qed.

(** X5.  In a frame, exactly the enemies whose roll says so shoot, each
    once and in the order of the formation: their bullets are appended to the
    enemy bullets and [enemy_shoot] is played once for each.  Enemies beyond
    the rolls at hand do not shoot, and nothing else of the game changes. *)
Theorem enemies_shoot_on_their_rolls (rl : list bool) (g : Game) :
  let who := shooters (enemies_group g) rl in
  enemy_shooting rl g =
  mkGame (player g) (player_alive g) (enemies_group g) (player_bullets g)
         (enemy_bullets g ++ map Enemy_shoot who) (score g)
         (enemy_current_move_speed_x g) (move_enemies_down g)
         (last_enemy_move_time g) (running g) (game_state g)
         (cues g ++ repeat enemy_shoot (length who)) /\
  incl who (enemies_group g) /\
  (length who <= length (enemies_group g))%nat /\
  (length who <= length (filter (fun r => r) rl))%nat /\
  (forall e, In e who -> exists r, In (e, r) (combine (enemies_group g) rl) /\ r = true).
Proof.
  cbv zeta. split; [|split; [|split; [|split]]].
  - unfold enemy_shooting. now rewrite enemy_shooting_loop_spec.
  - intros e He. unfold shooters in He. apply in_map_iff in He.
    destruct He as ([e' r] & <- & Hin). apply filter_In in Hin.
    exact (in_combine_l _ _ _ _ (proj1 Hin)).
  - unfold shooters. rewrite length_map.
    etransitivity; [apply filter_length_le|].
    rewrite length_combine. apply Nat.le_min_l.
  - unfold shooters. rewrite length_map.
    generalize (enemies_group g). intro es. revert es.
    induction rl as [|r rl IH]; intro es.
    + destruct es; cbn; lia.
    + destruct es as [|e es]; [cbn; lia|].
      cbn [combine filter snd]. specialize (IH es).
      destruct r; cbn [length]; lia.
  - intros e He. unfold shooters in He. apply in_map_iff in He.
    destruct He as ([e' r] & <- & Hin). apply filter_In in Hin.
    exists r. cbn [fst snd] in *. now split.
Qed.

(** ** The end screens *)

Lemma screen_poll_spec (evs : list Event) :
  forall waiting_for_input,
    screen_poll evs waiting_for_input =
    if existsb screen_quits evs then None
    else Some (waiting_for_input && negb (existsb screen_restarts evs)).
Proof.
  induction evs as [|ev evs IH]; intro w.
  - cbn. now rewrite andb_true_r.
  - destruct ev as [|key|key|].
    + reflexivity.
    + cbn [screen_poll existsb screen_quits screen_restarts orb]. apply IH.
    + destruct key;
        cbn [screen_poll existsb screen_quits screen_restarts orb];
        try apply IH; try reflexivity.
      rewrite IH. cbn [negb]. rewrite andb_false_r.
      now destruct (existsb screen_quits evs).
    + cbn [screen_poll existsb screen_quits screen_restarts orb]. apply IH.
Qed.

(** X6.  An end screen decides on the first poll that holds a quit event
    (window close or Q released) or R released; polls without either are
    passed over.  A quit event anywhere in that poll ends the program, also
    after an R in the same poll; otherwise the screen returns.  With no such
    poll the screen keeps waiting. *)
Theorem end_screen_first_decisive_poll (quiet : list (list Event))
        (evs : list Event) (later : list (list Event)) :
  Forall (fun p => existsb screen_quits p = false /\
                   existsb screen_restarts p = false) quiet ->
  end_screen quiet = screen_waiting /\
  (existsb screen_quits evs = true ->
   end_screen (quiet ++ evs :: later) = screen_exit) /\
  (existsb screen_quits evs = false -> existsb screen_restarts evs = true ->
   end_screen (quiet ++ evs :: later) = screen_returned).
Proof.
  intro Hq. induction Hq as [|p quiet [Hp1 Hp2] Hq IH].
  - split; [reflexivity|]. cbn [app end_screen]. rewrite screen_poll_spec.
    split; [now intros ->|]. intros -> ->. reflexivity.
  - cbn [app end_screen]. rewrite screen_poll_spec, Hp1, Hp2.
    cbn [negb andb]. exact IH.
Qed.

Lemma end_screen_first_decisive_poll_witness :
  end_screen [[OTHER; KEYUP K_w]; [KEYUP K_r; QUIT]; [KEYUP K_r]] = screen_exit /\
  end_screen [[OTHER; KEYUP K_w]; [KEYDOWN K_q; KEYUP K_r]; [QUIT]] = screen_returned.
Proof.
  assert (Hq : Forall (fun p => existsb screen_quits p = false /\
                                existsb screen_restarts p = false)
                      [[OTHER; KEYUP K_w]])
    by (repeat constructor).
  split.
  - exact (proj1 (proj2 (end_screen_first_decisive_poll
                           _ [KEYUP K_r; QUIT] [[KEYUP K_r]] Hq)) eq_refl).
  - exact (proj2 (proj2 (end_screen_first_decisive_poll
                           _ [KEYDOWN K_q; KEYUP K_r] [[QUIT]] Hq)) eq_refl eq_refl).
Defined.

(** ** The main loop *)

Lemma handle_events_terminal (evs : list (Event * Z)) :
  forall g,
    game_state g <> playing ->
    ~ In (KEYDOWN K_r) (map fst evs) ->
    exists g', handle_events evs g = Some g' /\ (g' = g \/ g' = stop_running g).
Proof.
  induction evs as [|[ev now] evs IH]; intros g Hg Hno.
  - exists g. split; [reflexivity|now left].
  - cbn [map fst In] in Hno.
    assert (Hrest : ~ In (KEYDOWN K_r) (map fst evs)) by tauto.
    assert (Hstop : exists g', handle_events evs (stop_running g) = Some g' /\
                               (g' = g \/ g' = stop_running g)).
    { destruct (IH (stop_running g) Hg Hrest) as (g' & H1 & [H2|H2]);
        exists g'; split; try exact H1; right; exact H2. }
    cbn [handle_events].
    destruct ev as [|key|key|]; try (now apply IH); [exact Hstop|].
    destruct (game_state g) eqn:Eg; [contradiction| |];
      (destruct key; try (apply IH; [rewrite Eg; discriminate|exact Hrest]);
       [exfalso; apply Hno; now left|exact Hstop]).
Qed.

(** X7.  While the game is over or won, the events of the main loop other
    than R pressed change nothing but the running flag, and they do not
    decide how the pass ends: window close and Q pressed only clear the flag,
    after which the end screen is shown all the same and its outcome is the
    outcome of the pass, a restart included. *)
Theorem terminal_pass_decided_by_end_screen (inp : Inputs) (g : Game) :
  game_state g <> playing ->
  ~ In (KEYDOWN K_r) (map fst (events inp)) ->
  exists g',
    handle_events (events inp) g = Some g' /\
    (g' = g \/ g' = stop_running g) /\
    loop_iteration inp g =
    match end_screen (screen_events inp) with
    | screen_returned => ReturnTrue
    | screen_exit => SysExit
    | screen_waiting => Waiting g'
    end.
Proof.
  intros Hg Hno.
  destruct (handle_events_terminal (events inp) g Hg Hno) as (g' & He & Hg').
  exists g'. split; [exact He|]. split; [exact Hg'|].
  unfold loop_iteration. rewrite He.
  assert (Hs : game_state g' = game_state g) by (destruct Hg'; subst; reflexivity).
  rewrite Hs. destruct (game_state g); [contradiction| |]; reflexivity.
Qed.

Lemma terminal_pass_decided_by_end_screen_witness :
  let g := frame (quiet_inputs 500) last_descent_game in
  let inp := mkInputs [(QUIT, 600); (KEYDOWN K_q, 600)] no_keys 600 [] [[KEYUP K_r]] in
  game_state g <> playing /\
  loop_iteration inp g = ReturnTrue.
Proof.
  cbv zeta.
  assert (Hg : game_state (frame (quiet_inputs 500) last_descent_game) <> playing)
    by (vm_compute; discriminate).
  split; [exact Hg|].
  destruct (terminal_pass_decided_by_end_screen
              (mkInputs [(QUIT, 600); (KEYDOWN K_q, 600)] no_keys 600 [] [[KEYUP K_r]])
              _ Hg) as (g' & _ & _ & H).
  - cbn. intros [H|[H|[]]]; discriminate.
  - exact H.
Defined.

Lemma frame_running (inp : Inputs) (g : Game) :
  running (frame inp g) = running g.
Proof.
  rewrite frame_phases.
  assert (Hc : forall h, running (check_win h) = running h).
  { intro h. unfold check_win. now destruct (enemies_group h), (game_state h). }
  rewrite Hc, bullets_hit_player_spec. cbn [running].
  rewrite bullets_hit_enemies_spec. cbn [running].
  assert (Hs : forall h, running (enemy_shooting (rolls inp) h) = running h).
  { intro h. unfold enemy_shooting. now destruct (enemy_shooting_loop _ _). }
  rewrite Hs. unfold after_movement.
  set (h := all_sprites_update (keystate inp) g).
  change (running g) with (running h).
  destruct (enemies_group h) as [|e0 group] eqn:E.
  - now rewrite enemy_movement_no_enemy.
  - destruct (Z_lt_ge_dec (ticks inp - last_enemy_move_time h) ENEMY_MOVE_INTERVAL).
    + now rewrite enemy_movement_early.
    + rewrite enemy_movement_due by (rewrite ?E; try discriminate; lia).
      cbv zeta. now destruct (existsb breaches_wall _ || move_enemies_down h).
Qed.

Lemma handle_events_playing (evs : list (Event * Z)) :
  forall g,
    game_state g = playing ->
    exists g', handle_events evs g = Some g' /\
               game_state g' = playing /\
               (running g' = true -> running g = true /\ ~ In QUIT (map fst evs)).
Proof.
  induction evs as [|[ev now] evs IH]; intros g Hg.
  - exists g. repeat split; try assumption. intros [].
  - cbn [handle_events map fst In]. rewrite Hg.
    assert (Hshoot : game_state (shoot_request now g) = playing /\
                     running (shoot_request now g) = running g).
    { unfold shoot_request. destruct (Player_shoot now (player g)) as [[? ?] ?].
      now split. }
    destruct ev as [|key|key|].
    + destruct (IH (stop_running g) Hg) as (g' & H1 & H2 & H3).
      exists g'. split; [exact H1|]. split; [exact H2|].
      intro Hr. destruct (H3 Hr) as [Hf _]. discriminate Hf.
    + assert (Hplain : exists g', handle_events evs g = Some g' /\
                 game_state g' = playing /\
                 (running g' = true ->
                  running g = true /\ ~ (KEYDOWN key = QUIT \/ In QUIT (map fst evs)))).
      { destruct (IH g Hg) as (g' & H1 & H2 & H3). exists g'.
        split; [exact H1|]. split; [exact H2|]. intro Hr.
        destruct (H3 Hr) as [Ha Hb]. split; [exact Ha|].
        intros [Hq|Hq]; [discriminate|contradiction]. }
      assert (Hshot : exists g', handle_events evs (shoot_request now g) = Some g' /\
                 game_state g' = playing /\
                 (running g' = true ->
                  running g = true /\ ~ (KEYDOWN key = QUIT \/ In QUIT (map fst evs)))).
      { destruct (IH (shoot_request now g) (proj1 Hshoot)) as (g' & H1 & H2 & H3).
        exists g'. split; [exact H1|]. split; [exact H2|]. intro Hr.
        destruct (H3 Hr) as [Ha Hb]. rewrite (proj2 Hshoot) in Ha.
        split; [exact Ha|]. intros [Hq|Hq]; [discriminate|contradiction]. }
      destruct key; assumption.
    + destruct (IH g Hg) as (g' & H1 & H2 & H3). exists g'.
      split; [exact H1|]. split; [exact H2|]. intro Hr.
      destruct (H3 Hr) as [Ha Hb]. split; [exact Ha|].
      intros [Hq|Hq]; [discriminate|contradiction].
    + destruct (IH g Hg) as (g' & H1 & H2 & H3). exists g'.
      split; [exact H1|]. split; [exact H2|]. intro Hr.
      destruct (H3 Hr) as [Ha Hb]. split; [exact Ha|].
      intros [Hq|Hq]; [discriminate|contradiction].
Qed.

(** X8.  While the game is being played a pass of the main loop never
    restarts and never shows an end screen: it runs the frame on the state the
    events leave, and then either goes round again or, when the running flag
    is down, ends the program.  A window close among the events always ends
    the program in this way, after the frame. *)
Theorem playing_pass_runs_the_frame (inp : Inputs) (g : Game) :
  game_state g = playing ->
  exists g1,
    handle_events (events inp) g = Some g1 /\
    game_state g1 = playing /\
    loop_iteration inp g =
      (if running g1 then Continue (frame inp g1) else SysExit) /\
    (In QUIT (map fst (events inp)) \/ running g = false ->
     loop_iteration inp g = SysExit) /\
    (forall g', loop_iteration inp g = Continue g' ->
                g' = frame inp g1 /\ running g' = true).
Proof.
  intro Hg.
  destruct (handle_events_playing (events inp) g Hg) as (g1 & He & Hg1 & Hr).
  exists g1. split; [exact He|]. split; [exact Hg1|].
  assert (Hl : loop_iteration inp g =
               if running g1 then Continue (frame inp g1) else SysExit).
  { unfold loop_iteration. rewrite He, Hg1. cbv zeta. now rewrite frame_running. }
  split; [exact Hl|]. split.
  - intro Hq. rewrite Hl. destruct (running g1) eqn:E; [|reflexivity].
    destruct (Hr eq_refl) as [Ha Hb]. destruct Hq as [Hq|Hq];
      [contradiction|congruence].
  - intros g' Hc. rewrite Hl in Hc. destruct (running g1) eqn:E; [|discriminate].
    injection Hc as <-. split; [reflexivity|]. now rewrite frame_running.
Qed.

Lemma playing_pass_runs_the_frame_witness :
  let inp := mkInputs [(KEYDOWN K_SPACE, 300); (QUIT, 300)] no_keys 300 [] [] in
  game_state (main_game_init 0 0) = playing /\
  loop_iteration inp (main_game_init 0 0) = SysExit.
Proof.
  cbv zeta. split; [reflexivity|].
  destruct (playing_pass_runs_the_frame
              (mkInputs [(KEYDOWN K_SPACE, 300); (QUIT, 300)] no_keys 300 [] [])
              (main_game_init 0 0) eq_refl) as (g1 & _ & _ & _ & Hq & _).
  apply Hq. left. right. left. reflexivity.
Defined.

(** ** Score, lives and the phase of the game *)

Lemma enemy_movement_outcome (now : Z) (g : Game) :
  let g' := enemy_movement now g in
  length (enemies_group g') = length (enemies_group g) /\
  ((game_state g' = game_over /\ lives (player g') = 0) \/
   (game_state g' = game_state g /\ lives (player g') = lives (player g))).
Proof.
  cbv zeta.
  destruct (enemies_group g) as [|e0 group] eqn:E.
  - rewrite enemy_movement_no_enemy by assumption. rewrite E. split; [reflexivity|now right].
  - destruct (Z_lt_ge_dec (now - last_enemy_move_time g) ENEMY_MOVE_INTERVAL).
    + rewrite enemy_movement_early by assumption. rewrite E. split; [reflexivity|now right].
    + rewrite enemy_movement_due by (rewrite ?E; try discriminate; lia).
      cbv zeta. rewrite <- E.
      destruct (existsb breaches_wall _ || move_enemies_down g);
        cbn [enemies_group game_state player lives with_lives];
        unfold dropped, sidestepped; rewrite ?length_map;
        (split; [reflexivity|]); [|now right].
      destruct (existsb (reaches_player _) _); [now left|now right].
Qed.

Lemma frame_score_and_enemies (inp : Inputs) (g : Game) :
  let g1 := enemy_shooting (rolls inp) (after_movement inp g) in
  let r := groupcollide (enemies_group g1) (player_bullets g1) in
  enemies_group (frame inp g) = snd (fst r) /\
  score (frame inp g) = score g + 100 * Z.of_nat (length (fst (fst r))) /\
  length (enemies_group g1) = length (enemies_group g).
Proof.
  cbv zeta. rewrite frame_phases.
  destruct (check_win_keeps (bullets_hit_player (bullets_hit_enemies
             (enemy_shooting (rolls inp) (after_movement inp g)))))
    as (_ & -> & _ & _ & -> & _).
  rewrite bullets_hit_player_spec. cbn [enemies_group score].
  rewrite bullets_hit_enemies_spec. cbn [enemies_group score].
  destruct (enemy_shooting_keeps (rolls inp) (after_movement inp g))
    as (_ & Es & _ & _ & Esc & _).
  assert (Hsc : score (after_movement inp g) = score g).
  { unfold after_movement.
    now rewrite (proj1 (proj2 (proj2 (proj2 (enemy_movement_keeps _ _))))). }
  assert (Hlen : length (enemies_group (after_movement inp g)) =
                 length (enemies_group g)).
  { unfold after_movement. now rewrite (proj1 (enemy_movement_outcome _ _)). }
  rewrite Esc, Es, Hsc, Hlen. repeat split.
Qed.

(** X9.  A frame adds to the score exactly 100 for every enemy it removes,
    and removes enemies only: the score never goes down and the number of
    enemies never goes up. *)
Theorem score_counts_destroyed_enemies (inp : Inputs) (g : Game) :
  (length (enemies_group (frame inp g)) <= length (enemies_group g))%nat /\
  score (frame inp g) =
    score g + 100 * (Z.of_nat (length (enemies_group g))
                     - Z.of_nat (length (enemies_group (frame inp g)))) /\
  score g <= score (frame inp g).
Proof.
  destruct (frame_score_and_enemies inp g) as (He & Hs & Hl). cbv zeta in *.
  set (g1 := enemy_shooting (rolls inp) (after_movement inp g)) in *.
  pose proof (groupcollide_enemies (enemies_group g1) (player_bullets g1)) as Hp.
  apply Permutation_length in Hp. rewrite length_app, length_map, Hl in Hp.
  rewrite He, Hs. lia.
Qed.

(** X10.  A frame that starts in play with a life left ends in exactly one
    of three ways, told apart by the lives and the enemies it leaves: the
    game is over exactly when no life is left; it is won exactly when a life
    is left and no enemy; otherwise it is still being played.  So a frame in
    which the last enemy and the last life go together ends in game over, not
    in a win.  A frame never adds a life. *)
Theorem phase_after_frame (inp : Inputs) (g : Game) :
  game_state g = playing -> 0 < lives (player g) ->
  let g' := frame inp g in
  (game_state g' = game_over <-> lives (player g') <= 0) /\
  (game_state g' = win <-> 0 < lives (player g') /\ enemies_group g' = []) /\
  (game_state g' = playing <-> 0 < lives (player g') /\ enemies_group g' <> []) /\
  lives (player g') <= lives (player g).
Proof.
  intros Hg Hl. cbv zeta.
  set (g0 := before_player_pass inp g).
  assert (H0 : (game_state g0 = game_over /\ lives (player g0) = 0) \/
               (game_state g0 = playing /\ lives (player g0) = lives (player g))).
  { subst g0. unfold before_player_pass.
    rewrite bullets_hit_enemies_spec. cbn [game_state player].
    destruct (enemy_shooting_keeps (rolls inp) (after_movement inp g))
      as (-> & _ & _ & -> & _).
    unfold after_movement.
    destruct (enemy_movement_outcome (ticks inp) (all_sprites_update (keystate inp) g))
      as (_ & [H|[H1 H2]]); [now left|right].
    rewrite H1, H2. cbn [all_sprites_update game_state player]. split; [exact Hg|].
    destruct (player_alive g); reflexivity. }
  assert (Hf : frame inp g = check_win (bullets_hit_player g0)) by reflexivity.
  pose proof (bullets_hit_player_spec g0) as Hs. cbv zeta in Hs.
  set (n := length (filter (overlaps_player (player g0)) (enemy_bullets g0))) in *.
  set (dead := match filter (overlaps_player (player g0)) (enemy_bullets g0) with
               | [] => false
               | _ :: _ => lives (player g0) - Z.of_nat n <=? 0
               end) in *.
  assert (Hdead : dead = true -> lives (player g0) - Z.of_nat n <= 0).
  { subst dead. destruct (filter _ _); [discriminate|]. apply Z.leb_le. }
  assert (Halive : dead = false -> game_state g0 = playing ->
                   0 < lives (player g0) - Z.of_nat n).
  { subst dead n. intros Hd Hp. destruct H0 as [[H _]|[_ H]]; [congruence|].
    destruct (filter _ _); [cbn; lia|]. apply Z.leb_gt in Hd. lia. }
  rewrite Hf. destruct (check_win_keeps (bullets_hit_player g0))
    as (-> & -> & _).
  unfold check_win. rewrite Hs.
  cbn [game_state enemies_group player lives with_lives].
  destruct dead.
  - specialize (Hdead eq_refl).
    assert (Hle : lives (player g0) - Z.of_nat n <= lives (player g))
      by (destruct H0 as [[_ H]|[_ H]]; lia).
    destruct (enemies_group g0); cbn [game_state];
      (split; [tauto|]); (split; [split; [discriminate|lia]|]);
      (split; [split; [discriminate|lia]|exact Hle]).
  - destruct H0 as [[Hgo Hlv]|[Hpl Hlv]].
    + rewrite Hgo.
      assert (Hle : lives (player g0) - Z.of_nat n <= 0) by lia.
      destruct (enemies_group g0); cbn [game_state]; rewrite ?Hgo;
        (split; [tauto|]); (split; [split; [discriminate|lia]|]);
        (split; [split; [discriminate|lia]|lia]).
    + specialize (Halive eq_refl Hpl). rewrite Hpl.
      destruct (enemies_group g0) eqn:Ee; cbn [game_state]; rewrite ?Hpl.
      * split; [split; [discriminate|lia]|].
        split; [split; [now split|reflexivity]|].
        split; [split; [discriminate|intros [_ H]; now contradict H]|lia].
      * split; [split; [discriminate|lia]|].
        split; [split; [discriminate|intros [_ H]; discriminate]|].
        split; [split; [split; [exact Halive|discriminate]|reflexivity]|lia].
Qed.

Lemma phase_after_frame_witness :
  let g := two_bullets_game in
  let inp := quiet_inputs 16 in
  game_state g = playing /\ 0 < lives (player g) /\
  lives (player (frame inp g)) <= 0 /\
  game_state (frame inp g) = game_over.
Proof.
  cbv zeta.
  assert (Hl : 0 < lives (player two_bullets_game)) by (vm_compute; reflexivity).
  assert (Hz : lives (player (frame (quiet_inputs 16) two_bullets_game)) <= 0)
    by (vm_compute; discriminate).
  split; [reflexivity|]. split; [exact Hl|]. split; [exact Hz|].
  destruct (phase_after_frame (quiet_inputs 16) two_bullets_game eq_refl Hl)
    as (Hover & _).
  exact (proj2 Hover Hz).
Defined.

(** ** The grid of [create_enemies] *)

Lemma create_enemies_on_grid (e : Enemy) :
  In e create_enemies ->
  exists row col,
    0 <= row < ENEMY_ROWS /\ 0 <= col < ENEMY_COLS /\ e = grid_enemy row col.
Proof.
  unfold create_enemies. cbv zeta. intro H.
  apply in_flat_map in H. destruct H as (row & Hrow & H).
  apply in_map_iff in H. destruct H as (col & <- & Hcol).
  apply in_seq in Hrow. apply in_seq in Hcol.
  exists (Z.of_nat row), (Z.of_nat col).
  change (Z.to_nat ENEMY_ROWS) with 5%nat in Hrow.
  change (Z.to_nat ENEMY_COLS) with 10%nat in Hcol.
  unfold ENEMY_ROWS, ENEMY_COLS.
  split; [lia|]. split; [lia|]. reflexivity.
Qed.

Lemma grid_enemy_inj (r1 c1 r2 c2 : Z) :
  grid_enemy r1 c1 = grid_enemy r2 c2 -> r1 = r2 /\ c1 = c2.
Proof.
  intro H.
  pose proof (f_equal enemy_type H) as Hr.
  pose proof (f_equal (fun e => rect_x (e_rect e)) H) as Hx.
  unfold grid_enemy in Hr, Hx. cbn [e_rect rect_x enemy_type] in Hr, Hx.
  unfold ENEMY_SPACING_X in Hx. split; lia.
Qed.

Lemma create_enemies_NoDup : NoDup create_enemies.
Proof.
  unfold create_enemies. cbv zeta.
  change (Z.to_nat ENEMY_ROWS) with 5%nat.
  change (Z.to_nat ENEMY_COLS) with 10%nat.
  assert (Hcols : forall row,
             NoDup (map (fun col =>
                           Enemy_init
                             ((SCREEN_WIDTH - ENEMY_COLS * ENEMY_SPACING_X) / 2
                              + ENEMY_SPACING_X / 2 - ENEMY_WIDTH / 2
                              + Z.of_nat col * ENEMY_SPACING_X)
                             (50 + Z.of_nat row * ENEMY_SPACING_Y) (Z.of_nat row))
                        (seq 0 10))).
  { intro row. apply Finite.Injective_map_NoDup; [|apply seq_NoDup].
    intros c1 c2 H.
    apply (f_equal (fun e => rect_x (e_rect e))) in H.
    cbn [Enemy_init e_rect set_x set_y rect_x] in H.
    unfold ENEMY_SPACING_X in H. lia. }
  generalize (seq_NoDup 5 0). generalize (seq 0 5). intros rows Hrows.
  induction Hrows as [|row rows Hnot Hrows IH]; [constructor|].
  cbn [flat_map]. apply NoDup_app; [apply Hcols|exact IH|].
  intros e He Hin.
  apply in_map_iff in He. destruct He as (c1 & <- & _).
  apply in_flat_map in Hin. destruct Hin as (row' & Hrow' & Hin).
  apply in_map_iff in Hin. destruct Hin as (c2 & Heq & _).
  apply (f_equal enemy_type) in Heq. cbn [Enemy_init enemy_type] in Heq.
  apply Nat2Z.inj in Heq. subst row'. contradiction.
Qed.

(** ** What every game keeps from its start on *)

Lemma formation_ok_ext (g g' : Game) :
  enemies_group g' = enemies_group g ->
  enemy_current_move_speed_x g' = enemy_current_move_speed_x g ->
  move_enemies_down g' = move_enemies_down g ->
  formation_ok g -> formation_ok g'.
Proof. unfold formation_ok. now intros -> -> ->. Qed.

Lemma formation_ok_init (t_player t_enemy : Z) :
  formation_ok (main_game_init t_player t_enemy).
Proof.
  unfold formation_ok. cbn [main_game_init enemies_group move_enemies_down
                             enemy_current_move_speed_x].
  split; [apply create_enemies_NoDup|].
  split; [|split; [reflexivity|left; split; [reflexivity|]]].
  - exists 0, 0. split; [lia|]. apply Forall_forall. intros e He.
    destruct (create_enemies_on_grid e He) as (row & col & Hr & Hc & ->).
    exists row, col. split; [exact Hr|]. split; [exact Hc|].
    unfold Enemy_shift, grid_enemy. cbn [e_rect rect_x rect_y rect_w rect_h enemy_type].
    now rewrite !Z.add_0_r.
  - apply Forall_forall. intros e He.
    destruct (create_enemies_on_grid e He) as (row & col & Hr & Hc & ->).
    unfold within_borders, rect_left, rect_right, grid_enemy,
      ENEMY_COLS, ENEMY_SPACING_X, ENEMY_WIDTH, SCREEN_WIDTH in *.
    cbn [e_rect rect_x rect_w]. lia.
Qed.

Lemma Enemy_shift_x_inj (dx : Z) : Finite.Injective (Enemy_shift_x dx).
Proof.
  intros [[x1 y1 w1 h1] t1] [[x2 y2 w2 h2] t2] H.
  unfold Enemy_shift_x, set_x in H. cbn [e_rect rect_x rect_y rect_w rect_h enemy_type] in H.
  pose proof (f_equal (fun e => rect_x (e_rect e)) H) as Hx.
  pose proof (f_equal (fun e => rect_y (e_rect e)) H) as Hy.
  pose proof (f_equal (fun e => rect_w (e_rect e)) H) as Hw.
  pose proof (f_equal (fun e => rect_h (e_rect e)) H) as Hh.
  pose proof (f_equal enemy_type H) as Ht.
  cbn [e_rect rect_x rect_y rect_w rect_h enemy_type] in *.
  assert (x1 = x2) by lia. congruence.
Qed.

Lemma Enemy_shift_y_inj (dy : Z) : Finite.Injective (Enemy_shift_y dy).
Proof.
  intros [[x1 y1 w1 h1] t1] [[x2 y2 w2 h2] t2] H.
  unfold Enemy_shift_y, set_y in H. cbn [e_rect rect_x rect_y rect_w rect_h enemy_type] in H.
  pose proof (f_equal (fun e => rect_x (e_rect e)) H) as Hx.
  pose proof (f_equal (fun e => rect_y (e_rect e)) H) as Hy.
  pose proof (f_equal (fun e => rect_w (e_rect e)) H) as Hw.
  pose proof (f_equal (fun e => rect_h (e_rect e)) H) as Hh.
  pose proof (f_equal enemy_type H) as Ht.
  cbn [e_rect rect_x rect_y rect_w rect_h enemy_type] in *.
  assert (y1 = y2) by lia. congruence.
Qed.

Lemma on_grid_shift_x (dx dy s : Z) (e : Enemy) :
  on_grid dx dy e -> on_grid (dx + s) dy (Enemy_shift_x s e).
Proof.
  intros (row & col & Hr & Hc & ->). exists row, col.
  split; [exact Hr|]. split; [exact Hc|].
  unfold Enemy_shift_x, Enemy_shift, set_x, grid_enemy.
  cbn [e_rect rect_x rect_y rect_w rect_h enemy_type].
  do 2 f_equal. lia.
Qed.

Lemma on_grid_shift_y (dx dy s : Z) (e : Enemy) :
  on_grid dx dy e -> on_grid dx (dy + s) (Enemy_shift_y s e).
Proof.
  intros (row & col & Hr & Hc & ->). exists row, col.
  split; [exact Hr|]. split; [exact Hc|].
  unfold Enemy_shift_y, Enemy_shift, set_y, grid_enemy.
  cbn [e_rect rect_x rect_y rect_w rect_h enemy_type].
  do 2 f_equal. lia.
Qed.

Lemma no_breach_within (group : list Enemy) :
  existsb breaches_wall group = false ->
  Forall (within_borders 0 SCREEN_WIDTH) group.
Proof.
  intro H. apply Forall_forall. intros e He.
  assert (Hb : breaches_wall e = false).
  { destruct (breaches_wall e) eqn:Eb; [|reflexivity].
    assert (existsb breaches_wall group = true)
      by (apply existsb_exists; now exists e).
    congruence. }
  unfold breaches_wall in Hb. apply orb_false_iff in Hb. destruct Hb as [H1 H2].
  rewrite Z.gtb_ltb in H1. apply Z.ltb_ge in H1, H2.
  split; assumption.
Qed.

Lemma formation_ok_movement (now : Z) (g : Game) :
  formation_ok g -> formation_ok (enemy_movement now g).
Proof.
  intro Hok.
  destruct (enemies_group g) as [|e0 group] eqn:E;
    [now rewrite enemy_movement_no_enemy|].
  destruct (Z_lt_ge_dec (now - last_enemy_move_time g) ENEMY_MOVE_INTERVAL);
    [now rewrite enemy_movement_early|].
  rewrite enemy_movement_due by (rewrite ?E; try discriminate; lia).
  clear E. destruct Hok as (Hnd & (dx & dy & Hdy & Hgrid) & Hflag & Hb).
  cbv zeta. rewrite Hflag, orb_false_r.
  set (s := enemy_current_move_speed_x g) in *.
  assert (Hnd1 : NoDup (sidestepped g))
    by (apply Finite.Injective_map_NoDup; [apply Enemy_shift_x_inj|exact Hnd]).
  assert (Hgrid1 : Forall (on_grid (dx + s) dy) (sidestepped g)).
  { unfold sidestepped. apply Forall_map.
    eapply Forall_impl; [|exact Hgrid]. intros e He. now apply on_grid_shift_x. }
  assert (Hside : forall lo hi,
             Forall (within_borders lo hi) (enemies_group g) ->
             Forall (within_borders (lo + s) (hi + s)) (sidestepped g)).
  { intros lo hi Hall. unfold sidestepped. apply Forall_map.
    eapply Forall_impl; [|exact Hall]. intros e [H1 H2].
    unfold within_borders, rect_left, rect_right, Enemy_shift_x, set_x in *.
    cbn [e_rect rect_x rect_w]. fold s. lia. }
  assert (Hdrop : forall lo hi,
             Forall (within_borders lo hi) (sidestepped g) ->
             Forall (within_borders lo hi) (dropped g)).
  { intros lo hi Hall. unfold dropped. apply Forall_map.
    eapply Forall_impl; [|exact Hall]. intros e He. exact He. }
  destruct (existsb breaches_wall (sidestepped g)) eqn:Hw;
    unfold formation_ok;
    cbn [enemies_group move_enemies_down enemy_current_move_speed_x].
  - split; [apply Finite.Injective_map_NoDup;
            [apply Enemy_shift_y_inj|exact Hnd1]|].
    split.
    { exists (dx + s), (dy + ENEMY_MOVE_DOWN_STEP).
      split; [unfold ENEMY_MOVE_DOWN_STEP; lia|].
      unfold dropped. apply Forall_map.
      eapply Forall_impl; [|exact Hgrid1]. intros e He. now apply on_grid_shift_y. }
    split; [reflexivity|].
    destruct Hb as [[Hs Hall]|[Hs Hall]]; rewrite Hs in *.
    + right. split; [reflexivity|]. apply Hdrop.
      exact (Hside (-1) SCREEN_WIDTH Hall).
    + left. split; [reflexivity|]. apply Hdrop.
      exact (Hside 0 (SCREEN_WIDTH + 1) Hall).
  - split; [exact Hnd1|].
    split; [exists (dx + s), dy; now split|].
    split; [reflexivity|].
    pose proof (no_breach_within _ Hw) as Hin.
    destruct Hb as [[Hs _]|[Hs _]]; [left|right]; (split; [exact Hs|]);
      (eapply Forall_impl; [|exact Hin]); intros e [H1 H2];
      unfold within_borders in *; lia.
Qed.

Lemma groupcollide_left_a_NoDup (groupa : list Enemy) (groupb : list Bullet) :
  NoDup groupa -> NoDup (snd (fst (groupcollide groupa groupb))).
Proof.
  intro H.
  pose proof (groupcollide_enemies groupa groupb) as Hp.
  apply Permutation_sym in Hp.
  pose proof (Permutation_NoDup Hp H) as Hn.
  now apply NoDup_app_remove_l in Hn.
Qed.

Lemma formation_ok_frame (inp : Inputs) (g : Game) :
  formation_ok g -> formation_ok (frame inp g).
Proof.
  intro Hok.
  assert (H1 : formation_ok (after_movement inp g)).
  { apply formation_ok_movement.
    now apply (formation_ok_ext g (all_sprites_update (keystate inp) g)). }
  set (g1 := enemy_shooting (rolls inp) (after_movement inp g)).
  assert (H2 : formation_ok g1).
  { destruct (enemy_shooting_keeps (rolls inp) (after_movement inp g))
      as (_ & Es & _ & _ & _ & _ & Ed & _).
    apply (formation_ok_ext (after_movement inp g)); try assumption.
    subst g1. unfold enemy_shooting. now destruct (enemy_shooting_loop _ _). }
  rewrite frame_phases. fold g1.
  destruct H2 as (Hnd & (dx & dy & Hdy & Hgrid) & Hflag & Hb).
  assert (Hfields :
            enemies_group (check_win (bullets_hit_player (bullets_hit_enemies g1))) =
              snd (fst (groupcollide (enemies_group g1) (player_bullets g1))) /\
            enemy_current_move_speed_x
              (check_win (bullets_hit_player (bullets_hit_enemies g1))) =
              enemy_current_move_speed_x g1 /\
            move_enemies_down
              (check_win (bullets_hit_player (bullets_hit_enemies g1))) =
              move_enemies_down g1).
  { assert (Hc : forall h, move_enemies_down (check_win h) = move_enemies_down h).
    { intro h. unfold check_win. now destruct (enemies_group h), (game_state h). }
    destruct (check_win_keeps (bullets_hit_player (bullets_hit_enemies g1)))
      as (_ & -> & _ & _ & _ & _ & -> & _).
    rewrite Hc, bullets_hit_player_spec.
    cbn [enemies_group enemy_current_move_speed_x move_enemies_down].
    rewrite bullets_hit_enemies_spec.
    cbn [enemies_group enemy_current_move_speed_x move_enemies_down].
    repeat split. }
  destruct Hfields as (He & Hs & Hd).
  pose proof (groupcollide_left_a_incl (enemies_group g1) (player_bullets g1)) as Hincl.
  assert (Hsub : forall P : Enemy -> Prop,
             Forall P (enemies_group g1) ->
             Forall P (snd (fst (groupcollide (enemies_group g1) (player_bullets g1))))).
  { intros P HP. apply Forall_forall. intros e Hin.
    rewrite Forall_forall in HP. apply HP, Hincl, Hin. }
  unfold formation_ok. rewrite He, Hs, Hd.
  split; [now apply groupcollide_left_a_NoDup|].
  split; [exists dx, dy; split; [exact Hdy|now apply Hsub]|].
  split; [exact Hflag|].
  destruct Hb as [[Hsp Hall]|[Hsp Hall]]; [left|right]; (split; [exact Hsp|now apply Hsub]).
Qed.

Lemma bullet_ok_moved (direction : Z) (b : Bullet) :
  bullet_ok direction b -> bullet_ok direction (Bullet_moved b).
Proof. intros (H1 & H2 & H3). repeat split; assumption. Qed.

Lemma Forall_filter_moved (direction : Z) (f : Bullet -> bool) (group : list Bullet) :
  Forall (bullet_ok direction) group ->
  Forall (bullet_ok direction) (filter f (map Bullet_moved group)).
Proof.
  intro H. apply Forall_forall. intros b Hb.
  apply filter_In in Hb. destruct Hb as [Hb _].
  apply in_map_iff in Hb. destruct Hb as (b0 & <- & Hb0).
  rewrite Forall_forall in H. now apply bullet_ok_moved, H.
Qed.

Lemma enemy_movement_player (now : Z) (g : Game) :
  p_rect (player (enemy_movement now g)) = p_rect (player g) /\
  shoot_delay (player (enemy_movement now g)) = shoot_delay (player g) /\
  last_shot_time (player (enemy_movement now g)) = last_shot_time (player g).
Proof.
  destruct (enemies_group g) as [|e0 group] eqn:E.
  - now rewrite enemy_movement_no_enemy.
  - destruct (Z_lt_ge_dec (now - last_enemy_move_time g) ENEMY_MOVE_INTERVAL).
    + now rewrite enemy_movement_early.
    + rewrite enemy_movement_due by (rewrite ?E; try discriminate; lia).
      cbv zeta.
      destruct (existsb breaches_wall _ || move_enemies_down g); repeat split.
Qed.

Lemma frame_player (inp : Inputs) (g : Game) :
  let p := if player_alive g then Player_update (keystate inp) (player g)
           else player g in
  p_rect (player (frame inp g)) = p_rect p /\
  shoot_delay (player (frame inp g)) = shoot_delay p /\
  last_shot_time (player (frame inp g)) = last_shot_time p.
Proof.
  cbv zeta. rewrite frame_phases.
  rewrite (proj1 (check_win_keeps _)).
  rewrite bullets_hit_player_spec. cbn [player with_lives p_rect shoot_delay last_shot_time].
  rewrite bullets_hit_enemies_spec. cbn [player].
  rewrite (proj1 (proj2 (proj2 (proj2 (enemy_shooting_keeps _ _))))).
  unfold after_movement.
  destruct (enemy_movement_player (ticks inp) (all_sprites_update (keystate inp) g))
    as (-> & -> & ->).
  repeat split.
Qed.

Lemma well_formed_frame (inp : Inputs) (g : Game) :
  well_formed g -> well_formed (frame inp g).
Proof.
  intros (Hp & Hpb & Heb & Hf).
  split; [|split; [|split; [|now apply formation_ok_frame]]].
  - destruct (frame_player inp g) as (Hr & Hd & _). cbv zeta in Hr, Hd.
    destruct Hp as (Hy & Hw & Hh & Hx & Hdelay).
    unfold player_ok. rewrite Hr, Hd.
    destruct (player_alive g); [|repeat split; try assumption; lia].
    destruct (Player_update_clamped (keystate inp) (player g))
      as (Hl' & Hr' & Hy' & Hw' & Hh' & _ & Hd' & _).
    { rewrite Hw. unfold PLAYER_WIDTH, SCREEN_WIDTH. lia. }
    cbv zeta in *. rewrite Hy', Hw', Hh', Hd'.
    unfold rect_left, rect_right in Hl', Hr'. rewrite Hw', Hw in Hr'.
    repeat split; try assumption; lia.
  - rewrite frame_player_bullets.
    rewrite <- update_bullets_spec, update_bullets_spec.
    apply Forall_forall. intros b Hb. apply filter_In in Hb. destruct Hb as [Hb _].
    revert b Hb. apply Forall_forall. now apply Forall_filter_moved.
  - pose proof (frame_enemy_bullets inp g) as H. cbv zeta in H. rewrite H.
    apply Forall_app. split.
    + apply Forall_forall. intros b Hb. apply filter_In in Hb. destruct Hb as [Hb _].
      revert b Hb. apply Forall_forall. now apply Forall_filter_moved.
    + apply Forall_forall. intros b Hb. apply filter_In in Hb. destruct Hb as [Hb _].
      rewrite enemy_shooting_loop_spec in Hb. cbn [fst] in Hb.
      apply in_map_iff in Hb. destruct Hb as (e & <- & _).
      repeat split.
Qed.

Lemma well_formed_events (evs : list (Event * Z)) :
  forall g g', well_formed g -> handle_events evs g = Some g' -> well_formed g'.
Proof.
  induction evs as [|[ev now] evs IH]; intros g g' Hwf H.
  - now injection H as <-.
  - cbn [handle_events] in H.
    assert (Hshoot : well_formed (shoot_request now g)).
    { destruct Hwf as (Hp & Hpb & Heb & Hf).
      destruct (Z_le_gt_dec (now - last_shot_time (player g)) (shoot_delay (player g))).
      - rewrite shoot_request_cooling by assumption.
        exact (conj Hp (conj Hpb (conj Heb Hf))).
      - rewrite shoot_request_ready by assumption.
        split; [exact Hp|]. split; [|split; [exact Heb|exact Hf]].
        cbn [player_bullets]. apply Forall_app. split; [exact Hpb|].
        constructor; [|constructor]. repeat split. }
    destruct ev as [|key|key|]; try (now apply (IH g)).
    + now apply (IH (stop_running g)).
    + destruct (game_state g), key; try discriminate;
        try (now apply (IH g));
        try (now apply (IH (shoot_request now g)));
        now apply (IH (stop_running g)).
Qed.

Lemma well_formed_init (t_player t_enemy : Z) :
  well_formed (main_game_init t_player t_enemy).
Proof.
  split; [|split; [constructor|split; [constructor|apply formation_ok_init]]].
  repeat split; vm_compute; discriminate.
Qed.

Lemma process_ok_step (inp : Inputs) (t_player t_enemy : Z) (p : Process) :
  process_ok p -> process_ok (program_step inp t_player t_enemy p).
Proof.
  pose proof (well_formed_init t_player t_enemy) as Hinit.
  destruct p as [g|g|]; cbn [process_ok program_step]; intro Hok.
  - unfold loop_iteration.
    destruct (handle_events (events inp) g) as [g1|] eqn:E; [|exact Hinit].
    pose proof (well_formed_events _ _ _ Hok E) as H1.
    destruct (game_state g1).
    + cbv zeta. rewrite frame_running.
      destruct (running g1); [|exact I]. now apply well_formed_frame.
    + destruct (end_screen (screen_events inp)); [exact Hinit|exact I|exact H1].
    + destruct (end_screen (screen_events inp)); [exact Hinit|exact I|exact H1].
  - destruct (end_screen (screen_events inp)); [exact Hinit|exact I|exact Hok].
  - exact I.
Qed.

(** X11.  Every state a run of the program passes through, from the start
    of a game and across restarts, is well formed: the player keeps its row
    and size and stays inside the screen, with a cooldown of 250 ms; the
    bullets of the player are 5 by 15 and go up at [BULLET_SPEED], those of
    the enemies go down at it; the enemies are distinct enemies of the first
    grid, all moved by one and the same offset, never up; the horizontal step
    is 1 or -1 and no enemy is more than one pixel past a border, on the side
    it last bounced off; and no descent is pending between frames. *)
Theorem every_state_of_a_run_is_well_formed
        (steps : list (Inputs * Z)) (t_player t_enemy : Z) :
  process_ok (run steps (InGame (main_game_init t_player t_enemy))).
Proof.
  assert (H : process_ok (InGame (main_game_init t_player t_enemy)))
    by apply well_formed_init.
  revert H. generalize (InGame (main_game_init t_player t_enemy)).
  induction steps as [|[inp t] steps IH]; intros p Hp; [exact Hp|].
  cbn [run]. apply IH. now apply process_ok_step.
Qed.

(** ** Which enemies a frame destroys *)

Lemma groupcollide_exclusive (groupa : list Enemy) :
  forall groupb,
    NoDup groupa ->
    (forall b e1 e2, In b groupb -> In e1 groupa -> In e2 groupa ->
                     overlaps_enemy b e1 = true -> overlaps_enemy b e2 = true ->
                     e1 = e2) ->
    let hit e := existsb (fun b => overlaps_enemy b e) groupb in
    map fst (fst (fst (groupcollide groupa groupb))) = filter hit groupa /\
    snd (fst (groupcollide groupa groupb)) = filter (fun e => negb (hit e)) groupa.
Proof.
  induction groupa as [|a rest IH]; intros groupb Hnd Hex; [now split|].
  cbv zeta. rewrite groupcollide_cons. cbv zeta.
  inversion Hnd as [|? ? Hnot Hnd']; subst.
  set (groupb' := filter (fun b => negb (overlaps_enemy b a)) groupb).
  assert (Hex' : forall b e1 e2, In b groupb' -> In e1 rest -> In e2 rest ->
                   overlaps_enemy b e1 = true -> overlaps_enemy b e2 = true ->
                   e1 = e2).
  { intros b e1 e2 Hb H1 H2. apply filter_In in Hb.
    apply (Hex b e1 e2 (proj1 Hb)); now right. }
  destruct (IH groupb' Hnd' Hex') as [IH1 IH2]. cbv zeta in IH1, IH2.
  assert (Hsame : forall e, In e rest ->
             existsb (fun b => overlaps_enemy b e) groupb' =
             existsb (fun b => overlaps_enemy b e) groupb).
  { intros e He.
    destruct (existsb (fun b => overlaps_enemy b e) groupb) eqn:Ex.
    - apply existsb_exists in Ex. destruct Ex as (b & Hb & Ho).
      apply existsb_exists. exists b. split; [|exact Ho].
      apply filter_In. split; [exact Hb|].
      apply negb_true_iff. destruct (overlaps_enemy b a) eqn:Ea; [|reflexivity].
      exfalso. apply Hnot.
      rewrite (Hex b a e Hb (or_introl eq_refl) (or_intror He) Ea Ho). exact He.
    - destruct (existsb (fun b => overlaps_enemy b e) groupb') eqn:Ex'; [|reflexivity].
      apply existsb_exists in Ex'. destruct Ex' as (b & Hb & Ho).
      apply filter_In in Hb.
      assert (existsb (fun b => overlaps_enemy b e) groupb = true)
        by (apply existsb_exists; exists b; split; [apply Hb|exact Ho]).
      congruence. }
  assert (Hf1 : filter (fun e => existsb (fun b => overlaps_enemy b e) groupb') rest =
                filter (fun e => existsb (fun b => overlaps_enemy b e) groupb) rest)
    by (apply filter_ext_in; exact Hsame).
  assert (Hf2 : filter (fun e => negb (existsb (fun b => overlaps_enemy b e) groupb')) rest =
                filter (fun e => negb (existsb (fun b => overlaps_enemy b e) groupb)) rest)
    by (apply filter_ext_in; intros e He; now rewrite Hsame).
  rewrite Hf1 in IH1. rewrite Hf2 in IH2.
  destruct (groupcollide rest groupb') as [[crashed left_a] left_b].
  cbn [fst snd] in IH1, IH2.
  assert (Hhead : existsb (fun b => overlaps_enemy b a) groupb =
                  match filter (fun b => overlaps_enemy b a) groupb with
                  | [] => false
                  | _ :: _ => true
                  end).
  { clear. induction groupb as [|b bs IHb]; [reflexivity|].
    cbn [existsb filter]. destruct (overlaps_enemy b a); [reflexivity|exact IHb]. }
  cbn [filter]. rewrite Hhead.
  destruct (filter (fun b => overlaps_enemy b a) groupb);
    cbn [fst snd map negb]; rewrite IH1, IH2; now split.
Qed.

Lemma one_enemy_under_a_bullet (dx dy : Z) (b : Bullet) (e1 e2 : Enemy) :
  rect_w (b_rect b) = BULLET_WIDTH -> rect_h (b_rect b) = BULLET_HEIGHT ->
  on_grid dx dy e1 -> on_grid dx dy e2 ->
  overlaps_enemy b e1 = true -> overlaps_enemy b e2 = true ->
  e1 = e2.
Proof.
  intros Hw Hh (r1 & c1 & Hr1 & Hc1 & ->) (r2 & c2 & Hr2 & Hc2 & ->) H1 H2.
  unfold overlaps_enemy, colliderect, rect_left, rect_right, rect_top, rect_bottom,
    Enemy_shift, grid_enemy in H1, H2.
  cbn [e_rect rect_x rect_y rect_w rect_h] in H1, H2.
  rewrite Hw, Hh in H1, H2.
  rewrite !andb_true_iff, !Z.gtb_ltb, !Z.ltb_lt in H1, H2.
  unfold ENEMY_SPACING_X, ENEMY_SPACING_Y, ENEMY_WIDTH, ENEMY_HEIGHT,
    BULLET_WIDTH, BULLET_HEIGHT in *.
  assert (r1 = r2) by lia. assert (c1 = c2) by lia. now subst.
Qed.

(** X12.  In a game that is well formed no bullet of the player overlaps
    two enemies, so the order in which the collision pass finds the overlaps
    does not matter: a frame destroys exactly the enemies that a bullet of the
    player overlaps once the bullets and the formation have moved, and scores
    100 for each. *)
Theorem frame_destroys_the_overlapped_enemies (inp : Inputs) (g : Game) :
  well_formed g ->
  let g1 := after_movement inp g in
  let hit e := existsb (fun b => overlaps_enemy b e) (player_bullets g1) in
  (forall b e1 e2,
      In b (player_bullets g1) -> In e1 (enemies_group g1) -> In e2 (enemies_group g1) ->
      overlaps_enemy b e1 = true -> overlaps_enemy b e2 = true -> e1 = e2) /\
  enemies_group (frame inp g) = filter (fun e => negb (hit e)) (enemies_group g1) /\
  score (frame inp g) = score g + 100 * Z.of_nat (length (filter hit (enemies_group g1))).
Proof.
  intros (Hp & Hpb & Heb & Hf). cbv zeta.
  assert (H1 : formation_ok (after_movement inp g)).
  { apply formation_ok_movement.
    now apply (formation_ok_ext g (all_sprites_update (keystate inp) g)). }
  assert (Hb1 : Forall (bullet_ok (-1)) (player_bullets (after_movement inp g))).
  { unfold after_movement. rewrite (proj1 (enemy_movement_keeps _ _)).
    cbn [all_sprites_update player_bullets]. rewrite update_bullets_spec.
    now apply Forall_filter_moved. }
  destruct H1 as (Hnd & (dx & dy & _ & Hgrid) & _).
  assert (Hex : forall b e1 e2,
      In b (player_bullets (after_movement inp g)) ->
      In e1 (enemies_group (after_movement inp g)) ->
      In e2 (enemies_group (after_movement inp g)) ->
      overlaps_enemy b e1 = true -> overlaps_enemy b e2 = true -> e1 = e2).
  { intros b e1 e2 Hb He1 He2.
    rewrite Forall_forall in Hb1, Hgrid.
    destruct (Hb1 b Hb) as (Hw & Hh & _).
    exact (one_enemy_under_a_bullet dx dy b e1 e2 Hw Hh (Hgrid e1 He1) (Hgrid e2 He2)). }
  split; [exact Hex|].
  destruct (frame_score_and_enemies inp g) as (He & Hs & _). cbv zeta in He, Hs.
  destruct (enemy_shooting_keeps (rolls inp) (after_movement inp g))
    as (_ & Ees & Epb & _).
  rewrite Ees, Epb in He, Hs.
  destruct (groupcollide_exclusive _ _ Hnd Hex) as [Hc Hl]. cbv zeta in Hc, Hl.
  rewrite He, Hs, Hl. split; [reflexivity|].
  now rewrite <- Hc, length_map.
Qed.

Lemma aimed_shot_game_well_formed : well_formed aimed_shot_game.
Proof.
  split; [repeat split; vm_compute; discriminate|].
  split; [repeat constructor|]. split; [constructor|].
  exact (formation_ok_ext (main_game_init 0 0) aimed_shot_game
           eq_refl eq_refl eq_refl (formation_ok_init 0 0)).
Qed.

Lemma frame_destroys_the_overlapped_enemies_witness :
  let g := aimed_shot_game in
  let inp := quiet_inputs 16 in
  let g1 := after_movement inp g in
  let hit e := existsb (fun b => overlaps_enemy b e) (player_bullets g1) in
  well_formed g /\
  length (player_bullets g1) = 2%nat /\
  filter hit (enemies_group g1) = [grid_enemy 4 4] /\
  length (enemies_group g1) = 50%nat /\
  enemies_group (frame inp g) = filter (fun e => negb (hit e)) (enemies_group g1) /\
  length (filter (fun e => negb (hit e)) (enemies_group g1)) = 49%nat /\
  ~ In (grid_enemy 4 4) (enemies_group (frame inp g)) /\
  score g = 0 /\
  score (frame inp g) = 100.
Proof.
  cbv zeta.
  pose proof aimed_shot_game_well_formed as H.
  destruct (frame_destroys_the_overlapped_enemies (quiet_inputs 16) aimed_shot_game H)
    as (_ & He & Hs).
  cbv zeta in He, Hs.
  split; [exact H|]. split; [reflexivity|]. split; [reflexivity|].
  split; [reflexivity|]. split; [exact He|]. split; [reflexivity|].
  split.
  - rewrite He. intro Hin. apply filter_In in Hin. destruct Hin as [_ Hno].
    vm_compute in Hno. discriminate Hno.
  - split; [reflexivity|]. rewrite Hs. reflexivity.
Defined.

(** ** A step of the formation away from the borders *)

(** X13.  The formation descends, turns round and can end the game by
    reaching the player only in a step that takes an enemy past a border.  A
    step that is due, with no descent pending and every enemy inside the
    screen after the sideways move, moves every enemy by the horizontal step
    and nothing else: no enemy changes its height, the direction, the lives
    and the phase of the game stay as they were. *)
Theorem step_without_wall_hit_only_sidesteps (now : Z) (g : Game) :
  enemies_group g <> [] ->
  ENEMY_MOVE_INTERVAL <= now - last_enemy_move_time g ->
  move_enemies_down g = false ->
  (forall e, In e (enemies_group g) ->
             0 <= rect_left (e_rect e) + enemy_current_move_speed_x g /\
             rect_right (e_rect e) + enemy_current_move_speed_x g <= SCREEN_WIDTH) ->
  let g' := enemy_movement now g in
  enemies_group g' = map (Enemy_shift_x (enemy_current_move_speed_x g)) (enemies_group g) /\
  map (fun e => rect_y (e_rect e)) (enemies_group g') =
    map (fun e => rect_y (e_rect e)) (enemies_group g) /\
  enemy_current_move_speed_x g' = enemy_current_move_speed_x g /\
  move_enemies_down g' = false /\
  last_enemy_move_time g' = now /\
  game_state g' = game_state g /\
  lives (player g') = lives (player g).
Proof.
  intros Hne Hdue Hflag Hin. cbv zeta.
  assert (Hw : existsb breaches_wall (sidestepped g) = false).
  { destruct (existsb breaches_wall (sidestepped g)) eqn:Ex; [|reflexivity].
    apply existsb_exists in Ex. destruct Ex as (e' & He' & Hb).
    unfold sidestepped in He'. apply in_map_iff in He'.
    destruct He' as (e & <- & He). destruct (Hin e He) as [H1 H2].
    unfold breaches_wall, Enemy_shift_x, set_x, rect_left, rect_right in *.
    cbn [e_rect rect_x rect_w] in Hb.
    apply orb_true_iff in Hb. rewrite Z.gtb_ltb, !Z.ltb_lt in Hb. lia. }
  rewrite (enemy_movement_sideways now g Hne Hdue Hw Hflag).
  cbn [enemies_group enemy_current_move_speed_x move_enemies_down
       last_enemy_move_time game_state player with_lives lives].
  unfold sidestepped. rewrite map_map. repeat split.
Qed.

Lemma step_without_wall_hit_only_sidesteps_witness :
  let g := main_game_init 0 0 in
  enemies_group (enemy_movement 500 g) =
    map (Enemy_shift_x (enemy_current_move_speed_x g)) (enemies_group g) /\
  enemy_current_move_speed_x (enemy_movement 500 g) = 1.
Proof.
  cbv zeta.
  destruct (step_without_wall_hit_only_sidesteps 500 (main_game_init 0 0))
    as (H1 & _ & H3 & _).
  - discriminate.
  - vm_compute. discriminate.
  - reflexivity.
  - intros e He. destruct (create_enemies_on_grid e He) as (r & c & Hr & Hc & ->).
    unfold grid_enemy, rect_left, rect_right, ENEMY_COLS, ENEMY_SPACING_X,
      ENEMY_WIDTH, SCREEN_WIDTH in *.
    cbn [e_rect rect_x rect_w main_game_init enemy_current_move_speed_x].
    unfold ENEMY_MOVE_SPEED_X. lia.
  - split; [exact H1|exact H3].
Defined.

(** ** Shots in one pass of the loop *)

Lemma handle_events_one_shot (evs : list (Event * Z)) (a : Z) :
  forall g g',
    shoot_delay (player g) = 250 ->
    (forall ev t, In (ev, t) evs -> a <= t <= a + 250) ->
    handle_events evs g = Some g' ->
    (length (player_bullets g') <= S (length (player_bullets g)))%nat /\
    (a <= last_shot_time (player g) -> player_bullets g' = player_bullets g).
Proof.
  induction evs as [|[ev now] evs IH]; intros g g' Hd Hall H.
  - injection H as <-. split; [lia|reflexivity].
  - assert (Hrest : forall ev' t, In (ev', t) evs -> a <= t <= a + 250)
      by (intros ev' t Hin; apply (Hall ev' t); now right).
    assert (Hnow : a <= now <= a + 250) by (apply (Hall ev now); now left).
    assert (Hshot : handle_events evs (shoot_request now g) = Some g' ->
              (length (player_bullets g') <= S (length (player_bullets g)))%nat /\
              (a <= last_shot_time (player g) -> player_bullets g' = player_bullets g)).
    { intro H'.
      destruct (Z_le_gt_dec (now - last_shot_time (player g)) (shoot_delay (player g)))
        as [Hc|Hr].
      - rewrite shoot_request_cooling in H' by assumption. exact (IH g g' Hd Hrest H').
      - rewrite shoot_request_ready in H' by assumption.
        apply IH in H'; [|exact Hd|exact Hrest]. destruct H' as [_ Hsame].
        cbn [player with_last_shot_time last_shot_time player_bullets] in Hsame.
        rewrite (Hsame (proj1 Hnow)), length_app. cbn [length].
        split; [lia|]. intro Ha. rewrite Hd in Hr. lia. }
    cbn [handle_events] in H.
    destruct ev as [|key|key|]; try exact (IH g g' Hd Hrest H).
    + exact (IH (stop_running g) g' Hd Hrest H).
    + destruct (game_state g), key; try discriminate;
        try exact (IH g g' Hd Hrest H);
        try exact (Hshot H);
        exact (IH (stop_running g) g' Hd Hrest H).
Qed.

(** X14.  However many shoot keys are pressed in one pass of the loop, the
    events of the pass add at most one bullet when their clock readings lie
    within 250 ms of each other, and none when the last shot was made in that
    span as well. *)
Theorem one_pass_adds_at_most_one_bullet
        (evs : list (Event * Z)) (a : Z) (g g' : Game) :
  shoot_delay (player g) = 250 ->
  (forall ev t, In (ev, t) evs -> a <= t <= a + 250) ->
  handle_events evs g = Some g' ->
  (length (player_bullets g') <= S (length (player_bullets g)))%nat /\
  (a <= last_shot_time (player g) -> player_bullets g' = player_bullets g).
Proof. apply handle_events_one_shot. Qed.

Lemma one_pass_adds_at_most_one_bullet_witness :
  let evs := [(KEYDOWN K_SPACE, 300); (KEYDOWN K_UP, 301); (KEYDOWN K_w, 310)] in
  exists g',
    handle_events evs (main_game_init 0 0) = Some g' /\
    (length (player_bullets g') <= 1)%nat.
Proof.
  cbv zeta. eexists. split; [reflexivity|].
  refine (proj1 (one_pass_adds_at_most_one_bullet
                   [(KEYDOWN K_SPACE, 300); (KEYDOWN K_UP, 301); (KEYDOWN K_w, 310)]
                   300 (main_game_init 0 0) _ eq_refl _ eq_refl)).
  intros ev t [H|[H|[H|[]]]]; injection H as _ <-; lia.
Defined.

(** ** The first grid *)

(** X15.  [create_enemies] makes ENEMY_ROWS x ENEMY_COLS = 50 enemies, all
    different: exactly one at every row and column of the grid, of the type of
    its row, inside the screen, and no two of them overlapping. *)
Theorem create_enemies_makes_the_grid :
  length create_enemies = Z.to_nat (ENEMY_ROWS * ENEMY_COLS) /\
  NoDup create_enemies /\
  (forall e, In e create_enemies <->
             exists row col, 0 <= row < ENEMY_ROWS /\ 0 <= col < ENEMY_COLS /\
                             e = grid_enemy row col) /\
  (forall e, In e create_enemies ->
             0 <= rect_left (e_rect e) /\ rect_right (e_rect e) <= SCREEN_WIDTH /\
             0 <= rect_top (e_rect e) /\ rect_bottom (e_rect e) <= SCREEN_HEIGHT) /\
  (forall e1 e2, In e1 create_enemies -> In e2 create_enemies ->
                 colliderect (e_rect e1) (e_rect e2) = true -> e1 = e2).
Proof.
  split; [reflexivity|]. split; [apply create_enemies_NoDup|].
  split; [|split].
  - intro e. split; [apply create_enemies_on_grid|].
    intros (row & col & Hr & Hc & ->). now apply create_enemies_grid.
  - intros e He. destruct (create_enemies_on_grid e He) as (r & c & Hr & Hc & ->).
    unfold grid_enemy, rect_left, rect_right, rect_top, rect_bottom,
      ENEMY_ROWS, ENEMY_COLS, ENEMY_SPACING_X, ENEMY_SPACING_Y,
      ENEMY_WIDTH, ENEMY_HEIGHT, SCREEN_WIDTH, SCREEN_HEIGHT in *.
    cbn [e_rect rect_x rect_y rect_w rect_h]. lia.
  - intros e1 e2 He1 He2 H.
    destruct (create_enemies_on_grid e1 He1) as (r1 & c1 & Hr1 & Hc1 & ->).
    destruct (create_enemies_on_grid e2 He2) as (r2 & c2 & Hr2 & Hc2 & ->).
    unfold colliderect, grid_enemy, rect_left, rect_right, rect_top, rect_bottom,
      ENEMY_SPACING_X, ENEMY_SPACING_Y, ENEMY_WIDTH, ENEMY_HEIGHT in *.
    cbn [e_rect rect_x rect_y rect_w rect_h] in H.
    rewrite !andb_true_iff, !Z.gtb_ltb, !Z.ltb_lt in H.
    assert (r1 = r2) by lia. assert (c1 = c2) by lia. now subst.
Qed.

Lemma create_enemies_makes_the_grid_witness :
  In (grid_enemy 4 9) create_enemies /\
  rect_right (e_rect (grid_enemy 4 9)) <= SCREEN_WIDTH.
Proof.
  destruct create_enemies_makes_the_grid as (_ & _ & Hin & Hscreen & _).
  assert (H : In (grid_enemy 4 9) create_enemies).
  { apply Hin. exists 4, 9. repeat split; vm_compute; discriminate. }
  split; [exact H|]. apply (Hscreen _ H).
Defined.

(** ** The further theorems at concrete states *)

Lemma Player_update_stays_in_screen_witness :
  let p := mkPlayer (mkRect 799 560 PLAYER_WIDTH PLAYER_HEIGHT) 0 3 250 0 in
  rect_w (p_rect p) <= SCREEN_WIDTH /\
  rect_right (p_rect (Player_update right_key p)) <= SCREEN_WIDTH.
Proof.
  cbv zeta.
  assert (H : rect_w (p_rect (mkPlayer (mkRect 799 560 PLAYER_WIDTH PLAYER_HEIGHT)
                                       0 3 250 0)) <= SCREEN_WIDTH)
    by (vm_compute; discriminate).
  split; [exact H|].
  exact (proj1 (proj2 (Player_update_stays_in_screen right_key _ H))).
Defined.

Lemma Player_update_follows_keys_witness :
  let p := Player_init 0 in
  let k := mkKeys true false true false in
  0 <= rect_left (p_rect p) /\ rect_right (p_rect p) <= SCREEN_WIDTH /\
  speed_x (Player_update k p) = PLAYER_SPEED.
Proof.
  cbv zeta.
  assert (H1 : 0 <= rect_left (p_rect (Player_init 0))) by (vm_compute; discriminate).
  assert (H2 : rect_right (p_rect (Player_init 0)) <= SCREEN_WIDTH)
    by (vm_compute; discriminate).
  split; [exact H1|]. split; [exact H2|].
  destruct (Player_update_follows_keys (mkKeys true false true false) (Player_init 0) H1 H2)
    as (Hright & _).
  exact (proj1 (Hright eq_refl)).
Defined.

Lemma new_bullet_clear_of_shooter_witness :
  snd (fst (Player_shoot 300 (Player_init 0))) = Some (Bullet_init 400 560 (-1)) /\
  overlaps_player (Player_init 0) (Bullet_init 400 560 (-1)) = false.
Proof.
  assert (H : snd (fst (Player_shoot 300 (Player_init 0))) =
              Some (Bullet_init 400 560 (-1))) by reflexivity.
  split; [exact H|].
  destruct new_bullet_clear_of_shooter as [Hp _].
  exact (proj2 (proj2 (proj2 (Hp 300 (Player_init 0) _ H)))).
Defined.

Lemma enemies_shoot_on_their_rolls_witness :
  let g := main_game_init 0 0 in
  In (grid_enemy 0 1) (shooters (enemies_group g) [false; true]) /\
  exists r, In (grid_enemy 0 1, r) (combine (enemies_group g) [false; true]) /\ r = true.
Proof.
  cbv zeta.
  assert (H : In (grid_enemy 0 1)
                 (shooters (enemies_group (main_game_init 0 0)) [false; true]))
    by (left; reflexivity).
  split; [exact H|].
  destruct (enemies_shoot_on_their_rolls [false; true] (main_game_init 0 0))
    as (_ & _ & _ & _ & Hwho).
  exact (Hwho _ H).
Defined.

(** ** The cues of a frame *)

Lemma frame_cues_player_pass (inp : Inputs) (g : Game) :
  cues (frame inp g) =
  cues (before_player_pass inp g)
  ++ repeat player_hit
       (length (filter (overlaps_player (player (before_player_pass inp g)))
                       (enemy_bullets (before_player_pass inp g)))).
Proof.
  change (frame inp g) with (check_win (bullets_hit_player (before_player_pass inp g))).
  destruct (check_win_keeps (bullets_hit_player (before_player_pass inp g)))
    as (_ & _ & _ & _ & _ & _ & _ & ->).
  now rewrite bullets_hit_player_spec.
Qed.

Lemma enemy_shooting_cues (rl : list bool) (g : Game) :
  cues (enemy_shooting rl g) =
    cues g ++ repeat enemy_shoot (length (shooters (enemies_group g) rl)) /\
  enemies_group (enemy_shooting rl g) = enemies_group g.
Proof.
  unfold enemy_shooting. rewrite enemy_shooting_loop_spec. now split.
Qed.


(** X16.  A frame plays its cues in the order of its phases and only then:
    [enemy_shoot] once for every enemy that shoots, then [enemy_destroyed]
    once for every enemy destroyed, then [player_hit] once for every enemy
    bullet that hits the player; the cues played before stay as they were. *)
Theorem cues_of_a_frame (inp : Inputs) (g : Game) :
  let g1 := after_movement inp g in
  let g0 := before_player_pass inp g in
  cues (frame inp g) =
  cues g
  ++ repeat enemy_shoot (length (shooters (enemies_group g1) (rolls inp)))
  ++ repeat enemy_destroyed
       (length (enemies_group g) - length (enemies_group (frame inp g)))
  ++ repeat player_hit
       (length (filter (overlaps_player (player g0)) (enemy_bullets g0))).
Proof.
  cbv zeta.
  destruct (frame_score_and_enemies inp g) as (He & _ & Hl). cbv zeta in He, Hl.
  set (g1 := enemy_shooting (rolls inp) (after_movement inp g)) in *.
  pose proof (groupcollide_enemies (enemies_group g1) (player_bullets g1)) as Hp.
  apply Permutation_length in Hp. rewrite length_app, length_map, Hl in Hp.
  assert (Hn : (length (enemies_group g) - length (enemies_group (frame inp g)))%nat =
               length (fst (fst (groupcollide (enemies_group g1) (player_bullets g1)))))
    by (rewrite He; lia).
  rewrite Hn.
  rewrite (frame_cues_player_pass inp g).
  unfold before_player_pass at 1. fold g1.
  rewrite bullets_hit_enemies_spec. cbn [cues].
  subst g1. rewrite (proj1 (enemy_shooting_cues _ _)).
  unfold after_movement at 1.
  rewrite (proj2 (proj2 (proj2 (proj2 (enemy_movement_keeps _ _))))).
  cbn [all_sprites_update cues].
  now rewrite <- !app_assoc.
Qed.
